(** * Compact transaction-output codec (compressor.h)

    A shallow embedding of [CScriptCompressor] and [CTxOutCompressor]:
    the script tag dispatch of [Serialize] / [Unserialize], the amount
    transform, and the composition of the two for a transaction output. *)

From Stdlib Require Import ZArith List Bool Lia.
From Stdlib.Strings Require Import Byte.
Import ListNotations.
Local Open Scope Z_scope.

(** ** Machine integers

    [uint64_t], [unsigned int] and [int64_t] values are integers in [Z];
    every arithmetic operation of the code is followed by the reduction
    that the C++ type performs. *)

Definition wrap (w : Z) (z : Z) : Z := z mod 2 ^ w.

Definition wrap64 (z : Z) : Z := wrap 64 z.
Definition wrap32 (z : Z) : Z := wrap 32 z.

Definition add64 (a b : Z) : Z := wrap64 (a + b).
Definition sub64 (a b : Z) : Z := wrap64 (a - b).
Definition mul64 (a b : Z) : Z := wrap64 (a * b).

(** Conversion of a [uint64_t] to the signed 64-bit [Amount]. *)
Definition to_int64 (z : Z) : Z :=
  let u := wrap64 z in if u <? 2 ^ 63 then u else u - 2 ^ 64.

(** ** Bytes, scripts and streams *)

Definition byte_to_Z (b : byte) : Z := Z.of_N (Byte.to_N b).

Definition byte_of_Z (z : Z) : byte :=
  match Byte.of_N (Z.to_N (z mod 256)) with
  | Some b => b
  | None => x00
  end.

(** A [CScript] is its sequence of bytes; [size] is [size()]. *)
Definition CScript := list byte.

Definition size (v : list byte) : Z := Z.of_nat (length v).

Fixpoint bytes_eqb (a b : list byte) : bool :=
  match a, b with
  | [], [] => true
  | x :: a', y :: b' => Byte.eqb x y && bytes_eqb a' b'
  | _, _ => false
  end.

(** [resize(n)] of a byte vector: keep the first [n] bytes, pad with zero
    bytes. *)
Definition resize (n : Z) (v : list byte) : list byte :=
  firstn (Z.to_nat n) v ++ repeat x00 (Z.to_nat n - length v).

(** A stream being read is the sequence of bytes not yet consumed (the
    cursor stands before its first byte); a stream being written is the
    sequence of bytes written so far. *)
Definition Stream := list byte.

(** ** Calls that may throw

    A call on a bound object and a stream either returns, or throws; in
    both cases it leaves a state behind, since what was written to the
    object before the exception stays written. *)

Inductive outcome (St A : Type) : Type :=
| Returned (a : A) (st : St)
| Thrown (st : St).
Arguments Returned {St A} a st.
Arguments Thrown {St A} st.

Definition M (St A : Type) : Type := St -> outcome St A.

Definition ret {St A} (a : A) : M St A := fun st => Returned a st.

Definition bind {St A B} (m : M St A) (k : A -> M St B) : M St B :=
  fun st =>
    match m st with
    | Returned a st' => k a st'
    | Thrown st' => Thrown st'
    end.

Notation "x <- m ;; k" := (bind m (fun x => k))
  (at level 61, m at next level, right associativity).
Notation "m ;;; k" := (bind m (fun _ => k))
  (at level 61, right associativity).

(** The state a call leaves behind, whether it returned or threw. *)
Definition final_state {St A} (o : outcome St A) : St :=
  match o with
  | Returned _ st => st
  | Thrown st => st
  end.

Definition get_obj {X} : M (X * Stream) X := fun st => Returned (fst st) st.

Definition modify_obj {X} (f : X -> X) : M (X * Stream) unit :=
  fun st => Returned tt (f (fst st), snd st).

(** Run a call on a part of the bound object (a reference to a member). *)
Definition on_member {X Y A} (get : X -> Y) (set : Y -> X -> X)
    (m : M (Y * Stream) A) : M (X * Stream) A :=
  fun st =>
    match m (get (fst st), snd st) with
    | Returned a (y, s) => Returned a (set y (fst st), s)
    | Thrown (y, s) => Thrown (set y (fst st), s)
    end.

(** Modelled from the spec: the flat byte-buffer primitive of the stream
    ([s >> CFlatData], [s << CFlatData], [s.ignore]); the stream type is a
    template parameter and serialize.h is not among the sources.  A read
    or a skip of more bytes than the stream holds throws. *)
Definition read {X} (n : Z) : M (X * Stream) (list byte) :=
  fun st =>
    if n <=? size (snd st)
    then Returned (firstn (Z.to_nat n) (snd st)) (fst st, skipn (Z.to_nat n) (snd st))
    else Thrown st.

(** Modelled from the spec: the skip capability of the stream
    ([s.ignore(n)]): the cursor moves past [n] bytes, none is copied. *)
Definition ignore {X} (n : Z) : M (X * Stream) unit :=
  fun st =>
    if n <=? size (snd st)
    then Returned tt (fst st, skipn (Z.to_nat n) (snd st))
    else Thrown st.

(** Modelled from the spec: writing bytes to a stream appends them. *)
Definition write (v : list byte) (s : Stream) : Stream := s ++ v.

(** ** The variable-length integer primitive *)

(** Modelled from the spec: [VARINT] of serialize.h, which is not among the
    sources.  It is the base-128 encoding, most significant group first,
    every byte but the last with its high bit set and one subtracted from
    each continued prefix, whose sizes the class comment of
    [CScriptCompressor] quotes: one byte up to 127, two up to 16511. *)
Fixpoint WriteVarInt_loop (fuel : nat) (n : Z) (len : Z) : list byte :=
  let tmp := byte_of_Z (Z.lor (Z.land n 127) (if len =? 0 then 0 else 128)) in
  if n <=? 127 then [tmp]
  else
    match fuel with
    | O => [tmp]
    | S fuel' => WriteVarInt_loop fuel' (Z.shiftr n 7 - 1) (len + 1) ++ [tmp]
    end.

(** The buffer of the writer has [(w + 6) / 7] bytes for a [w]-bit type,
    which bounds the loop. *)
Definition WriteVarInt (w : Z) (n : Z) : list byte :=
  WriteVarInt_loop (Z.to_nat ((w + 6) / 7)) (wrap w n) 0.

(** Modelled from the spec: the reader of [VARINT] into a [w]-bit unsigned
    type: each byte brings seven bits, a set high bit continues the
    integer and adds one.  A stream that ends inside the integer makes
    the read throw, with every byte consumed. *)
Fixpoint ReadVarInt_loop (w : Z) (n : Z) (s : Stream) : option Z * Stream :=
  match s with
  | [] => (None, [])
  | chData :: s' =>
      let n := wrap w (Z.lor (Z.shiftl n 7) (Z.land (byte_to_Z chData) 127)) in
      if Z.land (byte_to_Z chData) 128 =? 0 then (Some n, s')
      else ReadVarInt_loop w (wrap w (n + 1)) s'
  end.

Definition ReadVarInt {X} (w : Z) : M (X * Stream) Z :=
  fun st =>
    match ReadVarInt_loop w 0 (snd st) with
    | (Some n, s') => Returned n (fst st, s')
    | (None, s') => Thrown (fst st, s')
    end.

(** ** Collaborators outside compressor.h

    The constants and primitives that compressor.h takes from headers that
    are not among the sources: the protocol's script length limit
    (consensus.h), the opcodes (script.h) and the public key operations
    (pubkey.h). *)
Class Collaborators : Type := {
  MAX_SCRIPT_SIZE_AFTER_GENESIS : Z;
  OP_FALSE : byte;
  OP_RETURN : byte;
  OP_DUP : byte;
  OP_HASH160 : byte;
  OP_EQUALVERIFY : byte;
  OP_EQUAL : byte;
  OP_CHECKSIG : byte;
  (** validity of a serialized public key *)
  IsFullyValid : list byte -> bool;
  (** the full 65-byte key of an X-coordinate and the parity of Y *)
  decompress_point : list byte -> bool -> option (list byte)
}.

(** ** CScriptCompressor *)

Module CScriptCompressor.
Section WithCollaborators.
Context {env : Collaborators}.

Definition nSpecialScripts : Z := 6.

(** [script << opcode]: the operator of [CScript] (script.h, not among
    the sources) that builds a script opcode by opcode; it appends the
    opcode's byte at the end of the script. *)
Definition push_opcode (op : byte) : M (CScript * Stream) unit :=
  modify_obj (fun script => script ++ [op]).

(** The script templates with a short encoding: pay to a public key
    hash, pay to a script hash, and pay to a public key (a push of the
    key's bytes, then CHECKSIG). *)
Definition PayToKeyID (hash : list byte) : CScript :=
  [OP_DUP; OP_HASH160; x14] ++ hash ++ [OP_EQUALVERIFY; OP_CHECKSIG].

Definition PayToScriptID (hash : list byte) : CScript :=
  [OP_HASH160; x14] ++ hash ++ [OP_EQUAL].

Definition PayToPubKey (pubkey : list byte) : CScript :=
  [byte_of_Z (size pubkey)] ++ pubkey ++ [OP_CHECKSIG].

(** Modelled from the spec: [IsToKeyID], defined in compressor.cpp, which
    is not among the sources: the script is exactly the pay-to-public-key-
    hash template around a 20-byte hash. *)
Definition IsToKeyID (script : CScript) : option (list byte) :=
  let hash := firstn 20 (skipn 3 script) in
  if (size script =? 25) && bytes_eqb script (PayToKeyID hash)
  then Some hash else None.

(** Modelled from the spec: [IsToScriptID], defined in compressor.cpp,
    which is not among the sources: the script is exactly the
    pay-to-script-hash template around a 20-byte hash. *)
Definition IsToScriptID (script : CScript) : option (list byte) :=
  let hash := firstn 20 (skipn 2 script) in
  if (size script =? 23) && bytes_eqb script (PayToScriptID hash)
  then Some hash else None.

(** Modelled from the spec: [IsToPubKey], defined in compressor.cpp, which
    is not among the sources: the script is exactly a push of a valid
    public key followed by CHECKSIG, the key being 33 bytes starting with
    0x02 or 0x03, or 65 bytes starting with 0x04. *)
Definition IsToPubKey (script : CScript) : option (list byte) :=
  if size script =? 35 then
    let pubkey := firstn 33 (skipn 1 script) in
    if bytes_eqb script (PayToPubKey pubkey)
       && (Byte.eqb (nth 0 pubkey x00) x02 || Byte.eqb (nth 0 pubkey x00) x03)
       && IsFullyValid pubkey
    then Some pubkey else None
  else if size script =? 67 then
    let pubkey := firstn 65 (skipn 1 script) in
    if bytes_eqb script (PayToPubKey pubkey)
       && Byte.eqb (nth 0 pubkey x00) x04
       && IsFullyValid pubkey
    then Some pubkey else None
  else None.

(** Modelled from the spec: [Compress], defined in compressor.cpp, which
    is not among the sources: the first matching shape wins; the result
    is the tag byte followed by the payload.  For an uncompressed key the
    tag is 4 when the last byte of the key is even and 5 when it is odd,
    and the payload is the X-coordinate, bytes 1..33 of the key. *)
Definition Compress (script : CScript) : option (list byte) :=
  match IsToKeyID script with
  | Some keyID => Some (x00 :: keyID)
  | None =>
  match IsToScriptID script with
  | Some scriptID => Some (x01 :: scriptID)
  | None =>
  match IsToPubKey script with
  | Some pubkey =>
      let prefix := nth 0 pubkey x00 in
      if Byte.eqb prefix x02 || Byte.eqb prefix x03
      then Some (prefix :: firstn 32 (skipn 1 pubkey))
      else if Byte.eqb prefix x04
      then Some ((if Z.odd (byte_to_Z (nth 64 pubkey x00)) then x05 else x04)
                   :: firstn 32 (skipn 1 pubkey))
      else None
  | None => None
  end end end.

(** Modelled from the spec: [GetSpecialSize], defined in compressor.cpp,
    which is not among the sources: 20 for the tags 0 and 1, 32 for the
    tags 2 to 5.  The spec gives no size for other tags; [Unserialize]
    asks for none. *)
Definition GetSpecialSize (nSize : Z) : Z :=
  if (nSize =? 0) || (nSize =? 1) then 20
  else if (nSize =? 2) || (nSize =? 3) || (nSize =? 4) || (nSize =? 5) then 32
  else 0.

(** Modelled from the spec: [Decompress], defined in compressor.cpp, which
    is not among the sources: the tags 0 and 1 rebuild the hash templates,
    2 and 3 a compressed key with the tag as its first byte, 4 and 5 the
    uncompressed key that the point decompression recovers from the
    X-coordinate and the parity the tag records.  The declaration returns
    [bool]: where the key cannot be recovered, and for a tag that is not
    special, the script is left as it is and the result is [false]. *)
Definition Decompress (nSize : Z) (vch : list byte) : M (CScript * Stream) bool :=
  if nSize =? 0 then modify_obj (fun _ => PayToKeyID vch) ;;; ret true
  else if nSize =? 1 then modify_obj (fun _ => PayToScriptID vch) ;;; ret true
  else if (nSize =? 2) || (nSize =? 3) then
    modify_obj (fun _ => PayToPubKey (byte_of_Z nSize :: vch)) ;;; ret true
  else if (nSize =? 4) || (nSize =? 5) then
    match decompress_point vch (nSize =? 5) with
    | Some pubkey => modify_obj (fun _ => PayToPubKey pubkey) ;;; ret true
    | None => ret false
    end
  else ret false.

(** [Serialize] (compressor.h, lines 61-70). *)
Definition Serialize (script : CScript) (s : Stream) : Stream :=
  match Compress script with
  | Some compr => write compr s
  | None =>
      let nSize := wrap32 (size script + nSpecialScripts) in
      let s := write (WriteVarInt 32 nSize) s in
      write script s
  end.

(** [NonSpecialScriptUnserializer<Stream>::Unserialize], the primary
    template (compressor.h, lines 103-107). *)
Definition NonSpecialScriptUnserializer_Unserialize (nSize : Z)
    : M (CScript * Stream) unit :=
  modify_obj (resize nSize) ;;;
  vch <- read nSize ;;
  modify_obj (fun _ => vch).

(** [Unserialize] (compressor.h, lines 72-89). *)
Definition Unserialize : M (CScript * Stream) unit :=
  nSize <- ReadVarInt 32 ;;
  if nSize <? nSpecialScripts then
    vch <- read (GetSpecialSize nSize) ;;
    Decompress nSize vch ;;;
    ret tt
  else
    let nSize := wrap32 (nSize - nSpecialScripts) in
    if nSize >? MAX_SCRIPT_SIZE_AFTER_GENESIS then
      push_opcode OP_FALSE ;;;
      push_opcode OP_RETURN ;;;
      ignore nSize
    else
      NonSpecialScriptUnserializer_Unserialize nSize.

End WithCollaborators.
End CScriptCompressor.

(** ** CTxOutCompressor *)

Record CTxOut : Type := { nValue : Z; scriptPubKey : CScript }.

Module CTxOutCompressor.

(** Modelled from the spec: the stripping loop of [CompressAmount]
    (compressor.cpp, not among the sources): divide by ten while the last
    decimal digit is zero and fewer than nine zeros were removed.  [fuel]
    bounds the number of iterations; nine are enough for a loop that
    starts at [e = 0]. *)
Fixpoint strip_zeros (fuel : nat) (n e : Z) : Z * Z :=
  match fuel with
  | O => (n, e)
  | S fuel' =>
      if (n mod 10 =? 0) && (e <? 9)
      then strip_zeros fuel' (n / 10) (e + 1)
      else (n, e)
  end.

(** Modelled from the spec: [CTxOutCompressor::CompressAmount], declared in
    compressor.h and defined in compressor.cpp, which is not among the
    sources.  Zero maps to zero; otherwise up to nine trailing decimal
    zeros are stripped and counted in [e]; for [e < 9] the last digit [d]
    is removed and the result is [1 + (n*9 + (d-1))*10 + e], for [e = 9]
    it is [1 + (n-1)*10 + 9].  The arithmetic is that of [uint64_t]. *)
Definition CompressAmount (nAmount : Z) : Z :=
  let n := wrap64 nAmount in
  if n =? 0 then 0
  else
    let '(n, e) := strip_zeros 9 n 0 in
    if e <? 9 then
      let d := n mod 10 in
      let n := n / 10 in
      add64 1 (add64 (mul64 (add64 (mul64 n 9) (sub64 d 1)) 10) e)
    else
      add64 1 (add64 (mul64 (sub64 n 1) 10) 9).

(** Modelled from the spec: [CTxOutCompressor::DecompressAmount], declared
    in compressor.h and defined in compressor.cpp, which is not among the
    sources.  Zero maps to zero; otherwise one is subtracted and the value
    split by div/mod 10 into the exponent [e] and the rest [x]; for
    [e < 9] the digit is [d = x mod 9 + 1] and [n = (x div 9)*10 + d], for
    [e = 9] it is [n = x + 1]; the amount is [n] scaled by [10^e].  The
    arithmetic is that of [uint64_t]; the result is an [Amount]. *)
Definition DecompressAmount (nAmount : Z) : Z :=
  let x := wrap64 nAmount in
  if x =? 0 then 0
  else
    let x := sub64 x 1 in
    let e := x mod 10 in
    let x := x / 10 in
    let n :=
      if e <? 9 then
        let d := x mod 9 + 1 in
        let x := x / 9 in
        add64 (mul64 x 10) d
      else add64 x 1 in
    to_int64 (mul64 n (10 ^ e)).

(** The compressed form of the spec computed over the integers, without
    the reductions of [uint64_t]: what [CompressAmount] returns when
    nothing overflows. *)
Definition CompressAmount_exact (nAmount : Z) : Z :=
  if nAmount =? 0 then 0
  else
    let '(n, e) := strip_zeros 9 nAmount 0 in
    if e <? 9 then
      let d := n mod 10 in
      let n := n / 10 in
      1 + (n * 9 + (d - 1)) * 10 + e
    else
      1 + (n - 1) * 10 + 9.

Section WithCollaborators.
Context {env : Collaborators}.

(** [READWRITE(VARINT(nVal))] on a [uint64_t]: writes the value, or reads
    a new one, according to the action. *)
Definition READWRITE_VARINT (ForRead : bool) (nVal : Z) : M (CTxOut * Stream) Z :=
  if ForRead then ReadVarInt 64
  else fun st => Returned nVal (fst st, write (WriteVarInt 64 nVal) (snd st)).

(** [READWRITE(cscript)] for the compressor bound to [txout.scriptPubKey]. *)
Definition READWRITE_cscript (ForRead : bool) : M (CTxOut * Stream) unit :=
  on_member scriptPubKey
    (fun script txout => {| nValue := nValue txout; scriptPubKey := script |})
    (if ForRead then CScriptCompressor.Unserialize
     else fun st => Returned tt (fst st, CScriptCompressor.Serialize (fst st) (snd st))).

(** [SerializationOp] (compressor.h, lines 124-136). *)
Definition SerializationOp (ForRead : bool) : M (CTxOut * Stream) unit :=
  (if negb ForRead then
     txout <- get_obj ;;
     let nVal := CompressAmount (nValue txout) in
     READWRITE_VARINT ForRead nVal ;;;
     ret tt
   else
     let nVal := 0 in
     nVal <- READWRITE_VARINT ForRead nVal ;;
     modify_obj (fun txout =>
       {| nValue := DecompressAmount nVal; scriptPubKey := scriptPubKey txout |})) ;;;
  READWRITE_cscript ForRead.

(** [ADD_SERIALIZE_METHODS]: the two entry points. *)
Definition Serialize : M (CTxOut * Stream) unit := SerializationOp false.
Definition Unserialize : M (CTxOut * Stream) unit := SerializationOp true.

End WithCollaborators.
End CTxOutCompressor.

Import CTxOutCompressor.

(** ** A concrete configuration

    An instance of the collaborators, used to run the codec on concrete
    inputs: the opcode values of the script language, the curve secp256k1
    for the public keys, and a script length limit of 10000 bytes. *)

Module Secp256k1.

Definition p : Z := 2 ^ 256 - 2 ^ 32 - 977.

Fixpoint powmod (b : Z) (e : positive) (m : Z) : Z :=
  match e with
  | xH => b mod m
  | xO e' => let h := powmod b e' m in (h * h) mod m
  | xI e' => let h := powmod b e' m in (h * h * b) mod m
  end.

(** Big-endian bytes of a number and back. *)
Definition be_decode (v : list byte) : Z :=
  fold_left (fun acc b => acc * 256 + byte_to_Z b) v 0.

Definition be_encode32 (z : Z) : list byte :=
  map (fun i => byte_of_Z (z / 256 ^ (31 - Z.of_nat i))) (seq 0 32).

Definition on_curve (x y : Z) : bool :=
  (0 <=? x) && (x <? p) && (0 <=? y) && (y <? p)
  && ((y * y) mod p =? (x * x * x + 7) mod p).

(** The square root of [x^3 + 7] with the wanted parity, if there is one. *)
Definition lift_x (x : Z) (odd : bool) : option Z :=
  let y2 := (x * x * x + 7) mod p in
  match (p + 1) / 4 with
  | Zpos e =>
      let y := powmod y2 e p in
      if (x <? p) && ((y * y) mod p =? y2)
      then Some (if Bool.eqb (Z.odd y) odd then y else p - y)
      else None
  | _ => None
  end.

Definition decompress_point (x : list byte) (odd : bool) : option (list byte) :=
  match lift_x (be_decode x) odd with
  | Some y => Some (x04 :: be_encode32 (be_decode x) ++ be_encode32 y)
  | None => None
  end.

Definition IsFullyValid (pubkey : list byte) : bool :=
  match pubkey with
  | prefix :: body =>
      if Byte.eqb prefix x04 then
        (length body =? 64)%nat
        && on_curve (be_decode (firstn 32 body)) (be_decode (skipn 32 body))
      else if Byte.eqb prefix x02 || Byte.eqb prefix x03 then
        (length body =? 32)%nat
        && match lift_x (be_decode body) (Byte.eqb prefix x03) with
           | Some _ => true
           | None => false
           end
      else false
  | [] => false
  end.

(** The generator of the curve and its negation. *)
Definition Gx : Z := 0x79BE667EF9DCBBAC55A06295CE870B07029BFCDB2DCE28D959F2815B16F81798.
Definition Gy : Z := 0x483ADA7726A3C4655DA4FBFC0E1108A8FD17B448A68554199C47D08FFB10D4B8.

Definition G : list byte := x04 :: be_encode32 Gx ++ be_encode32 Gy.
Definition negG : list byte := x04 :: be_encode32 Gx ++ be_encode32 (p - Gy).

End Secp256k1.

#[local] Instance config : Collaborators := {|
  MAX_SCRIPT_SIZE_AFTER_GENESIS := 10000;
  OP_FALSE := x00;
  OP_RETURN := x6a;
  OP_DUP := x76;
  OP_HASH160 := xa9;
  OP_EQUALVERIFY := x88;
  OP_EQUAL := x87;
  OP_CHECKSIG := xac;
  IsFullyValid := Secp256k1.IsFullyValid;
  decompress_point := Secp256k1.decompress_point
|}.

(** The same configuration without a limit below what a tag can declare:
    scripts up to 2^32 - 1 bytes. *)
Definition config_unlimited : Collaborators := {|
  MAX_SCRIPT_SIZE_AFTER_GENESIS := 4294967295;
  OP_FALSE := x00;
  OP_RETURN := x6a;
  OP_DUP := x76;
  OP_HASH160 := xa9;
  OP_EQUALVERIFY := x88;
  OP_EQUAL := x87;
  OP_CHECKSIG := xac;
  IsFullyValid := Secp256k1.IsFullyValid;
  decompress_point := Secp256k1.decompress_point
|}.

Definition hash20 : list byte := map (fun i => byte_of_Z (Z.of_nat i + 17)) (seq 0 20).

(** A script of 2^32 - 6 zero bytes, the shortest whose length plus six
    does not fit an [unsigned int]. *)
Definition wrapping_script : CScript := repeat x00 (Z.to_nat 4294967290).

(** A stream that declares a raw script of 10001 bytes (tag 10007),
    holds them, and goes on with a marker byte. *)
Definition oversized_stream : Stream :=
  WriteVarInt 32 10007 ++ repeat x01 (Z.to_nat 10001) ++ [x99].


(** * Properties *)

(** ** Machine arithmetic *)

Lemma wrap64_small z : 0 <= z < 2 ^ 64 -> wrap64 z = z.
Proof. intros Hz. unfold wrap64, wrap. now apply Z.mod_small. Qed.

Lemma wrap64_idem z : wrap64 (wrap64 z) = wrap64 z.
Proof. unfold wrap64, wrap. apply Z.mod_mod. lia. Qed.

Lemma wrap64_add_cong a a' b b' :
  wrap64 a = wrap64 a' -> wrap64 b = wrap64 b' -> wrap64 (a + b) = wrap64 (a' + b').
Proof.
  unfold wrap64, wrap. intros Ha Hb.
  rewrite (Z.add_mod a), (Z.add_mod a') by lia. now rewrite Ha, Hb.
Qed.

Lemma wrap64_sub_cong a a' b b' :
  wrap64 a = wrap64 a' -> wrap64 b = wrap64 b' -> wrap64 (a - b) = wrap64 (a' - b').
Proof.
  unfold wrap64, wrap. intros Ha Hb.
  rewrite (Zminus_mod a), (Zminus_mod a'). now rewrite Ha, Hb.
Qed.

Lemma wrap64_mul_cong a a' b b' :
  wrap64 a = wrap64 a' -> wrap64 b = wrap64 b' -> wrap64 (a * b) = wrap64 (a' * b').
Proof.
  unfold wrap64, wrap. intros Ha Hb.
  rewrite (Z.mul_mod a), (Z.mul_mod a') by lia. now rewrite Ha, Hb.
Qed.

(** Reductions inside an expression can be dropped when the whole is
    reduced. *)
Ltac wrap_cong :=
  repeat first
    [ reflexivity
    | rewrite wrap64_idem
    | apply wrap64_add_cong
    | apply wrap64_sub_cong
    | apply wrap64_mul_cong ].

(** The two branches of the compression, with a single reduction at the
    end. *)
Lemma compress_low_wrap n d e :
  add64 1 (add64 (mul64 (add64 (mul64 n 9) (sub64 d 1)) 10) e)
  = wrap64 (1 + (n * 9 + (d - 1)) * 10 + e).
Proof.
  unfold add64, mul64, sub64.
  transitivity (wrap64 (1 + ((n * 9 + (d - 1)) * 10 + e))).
  - wrap_cong.
  - f_equal. ring.
Qed.

Lemma compress_high_wrap n :
  add64 1 (add64 (mul64 (sub64 n 1) 10) 9) = wrap64 (1 + (n - 1) * 10 + 9).
Proof.
  unfold add64, mul64, sub64.
  transitivity (wrap64 (1 + ((n - 1) * 10 + 9))).
  - wrap_cong.
  - f_equal. ring.
Qed.

(** ** The stripping loop *)

Lemma strip_zeros_factor fuel : forall n e s e',
  strip_zeros fuel n e = (s, e') ->
  0 <= e ->
  e <= e' /\ n = s * 10 ^ (e' - e).
Proof.
  induction fuel as [|fuel IH]; intros n e s e' Hs He; simpl in Hs.
  - injection Hs as <- <-. rewrite Z.sub_diag. simpl. lia.
  - destruct ((n mod 10 =? 0) && (e <? 9)) eqn:Hc.
    + apply andb_true_iff in Hc as [Hm _]. apply Z.eqb_eq in Hm.
      apply IH in Hs as [Hle Hn]; [|lia].
      split; [lia|].
      replace (e' - e) with (Z.succ (e' - (e + 1))) by lia.
      rewrite Z.pow_succ_r by lia.
      rewrite (Z.div_mod n 10) by lia. rewrite Hm, Hn. ring.
    + injection Hs as <- <-. rewrite Z.sub_diag. simpl. lia.
Qed.

(** Nine iterations are enough: the loop has stopped by itself. *)
Lemma strip_zeros_stops fuel : forall n e s e',
  strip_zeros fuel n e = (s, e') ->
  e <= 9 -> 9 <= e + Z.of_nat fuel ->
  e' <= 9 /\ (e' < 9 -> s mod 10 <> 0).
Proof.
  induction fuel as [|fuel IH]; intros n e s e' Hs He Hf; simpl in Hs.
  - injection Hs as <- <-. lia.
  - destruct ((n mod 10 =? 0) && (e <? 9)) eqn:Hc.
    + apply andb_true_iff in Hc as [_ Hlt]. apply Z.ltb_lt in Hlt.
      apply IH in Hs; lia.
    + injection Hs as <- <-.
      apply andb_false_iff in Hc as [Hm|Hlt].
      * apply Z.eqb_neq in Hm. lia.
      * apply Z.ltb_ge in Hlt. lia.
Qed.

Lemma strip_zeros_9 a s e :
  0 < a -> strip_zeros 9 a 0 = (s, e) ->
  0 <= e <= 9 /\ a = s * 10 ^ e /\ 0 < s /\ (e < 9 -> s mod 10 <> 0).
Proof.
  intros Ha Hs.
  destruct (strip_zeros_factor _ _ _ _ _ Hs) as [He Hf]; [lia|].
  destruct (strip_zeros_stops _ _ _ _ _ Hs) as [He9 Hm]; [lia|simpl; lia|].
  rewrite Z.sub_0_r in Hf.
  assert (0 < 10 ^ e) by (apply Z.pow_pos_nonneg; lia).
  repeat split; auto; try lia; nia.
Qed.

Lemma pow10_ge e : 0 <= e -> 1 <= 10 ^ e /\ (1 <= e -> 10 <= 10 ^ e).
Proof.
  intros He. split.
  - assert (0 < 10 ^ e) by (apply Z.pow_pos_nonneg; lia). lia.
  - intros H1. replace e with (Z.succ (e - 1)) by lia.
    rewrite Z.pow_succ_r by lia.
    assert (0 < 10 ^ (e - 1)) by (apply Z.pow_pos_nonneg; lia). lia.
Qed.

(** ** The amount transform *)

Lemma CompressAmount_eq a s e :
  0 < a < 2 ^ 64 ->
  strip_zeros 9 a 0 = (s, e) ->
  CompressAmount a =
    if e <? 9
    then wrap64 (1 + (s / 10 * 9 + (s mod 10 - 1)) * 10 + e)
    else wrap64 (1 + (s - 1) * 10 + 9).
Proof.
  intros Ha Hs. unfold CompressAmount.
  rewrite wrap64_small by lia.
  destruct (a =? 0) eqn:H0; [apply Z.eqb_eq in H0; lia|].
  rewrite Hs.
  destruct (e <? 9).
  - apply compress_low_wrap.
  - apply compress_high_wrap.
Qed.

(** The exponent the loop finds is the number of trailing decimal zeros,
    capped at nine. *)
Lemma strip_zeros_exponent a e :
  0 < a -> 0 <= e <= 9 ->
  (10 ^ e | a) -> (e < 9 -> ~ (10 ^ (e + 1) | a)) ->
  strip_zeros 9 a 0 = (a / 10 ^ e, e).
Proof.
  intros Ha He Hdiv Hmax.
  destruct (strip_zeros 9 a 0) as [s e'] eqn:Hs.
  destruct (strip_zeros_9 a s e' Ha Hs) as (He' & Hf & Hpos & Hm).
  assert (e' = e) as ->.
  { destruct (Z.lt_trichotomy e' e) as [Hlt|[Heq|Hgt]]; auto; exfalso.
    - apply Hm; [lia|].
      destruct Hdiv as [q Hq].
      replace e with (Z.succ e' + (e - e' - 1)) in Hq by lia.
      rewrite Z.pow_add_r, Z.pow_succ_r in Hq by lia.
      assert (0 < 10 ^ e') by (apply Z.pow_pos_nonneg; lia).
      assert (s = 10 * (q * 10 ^ (e - e' - 1))) as -> by nia.
      rewrite Z.mul_comm. apply Z.mod_mul. lia.
    - apply Hmax; [lia|].
      exists (s * 10 ^ (e' - (e + 1))).
      rewrite <- Z.mul_assoc, <- Z.pow_add_r by lia.
      rewrite Hf. do 2 f_equal. lia. }
  f_equal.
  assert (0 < 10 ^ e) by (apply Z.pow_pos_nonneg; lia).
  rewrite Hf. symmetry. apply Z.div_mul. lia.
Qed.

(** Below a ninth of [2^64] the compression does not overflow. *)
Lemma compress_no_overflow s e :
  0 < s -> 0 <= e <= 9 -> 9 * (s * 10 ^ e) < 2 ^ 64 ->
  (e < 9 -> s mod 10 <> 0) ->
  if e <? 9
  then 0 < 1 + (s / 10 * 9 + (s mod 10 - 1)) * 10 + e < 2 ^ 64
  else 0 < 1 + (s - 1) * 10 + 9 < 2 ^ 64.
Proof.
  intros Hs He Hb Hm.
  destruct (pow10_ge e) as [H1 H10]; [lia|].
  destruct (e <? 9) eqn:Hlt.
  - apply Z.ltb_lt in Hlt. specialize (Hm Hlt).
    pose proof (Z.div_mod s 10 ltac:(lia)) as Hdm.
    pose proof (Z.mod_pos_bound s 10 ltac:(lia)) as Hr.
    assert (0 <= s / 10) by (apply Z.div_pos; lia).
    split; [lia|].
    destruct (Z.eq_dec e 0) as [->|Hne].
    + rewrite Z.pow_0_r, Z.mul_1_r in Hb. lia.
    + assert (10 <= 10 ^ e) by (apply H10; lia). nia.
  - apply Z.ltb_ge in Hlt. assert (e = 9) as -> by lia.
    split; [lia|]. change (10 ^ 9) with 1000000000 in Hb. lia.
Qed.

Lemma to_int64_small z : 0 <= z < 2 ^ 63 -> to_int64 z = z.
Proof.
  intros Hz. unfold to_int64.
  rewrite wrap64_small by lia.
  destruct (z <? 2 ^ 63) eqn:H; auto. apply Z.ltb_ge in H. lia.
Qed.

Lemma CompressAmount_exact_eq a s e :
  0 < a ->
  strip_zeros 9 a 0 = (s, e) ->
  CompressAmount_exact a =
    if e <? 9
    then 1 + (s / 10 * 9 + (s mod 10 - 1)) * 10 + e
    else 1 + (s - 1) * 10 + 9.
Proof.
  intros Ha Hs. unfold CompressAmount_exact.
  destruct (a =? 0) eqn:H0; [apply Z.eqb_eq in H0; lia|].
  now rewrite Hs.
Qed.

(** [CompressAmount] is the exact form reduced modulo 2^64. *)
Lemma CompressAmount_wrap a :
  0 <= a < 2 ^ 64 -> CompressAmount a = wrap64 (CompressAmount_exact a).
Proof.
  intros Ha.
  destruct (Z.eq_dec a 0) as [->|Hne]; [reflexivity|].
  destruct (strip_zeros 9 a 0) as [s e] eqn:Hs.
  rewrite (CompressAmount_eq a s e), (CompressAmount_exact_eq a s e) by (auto; lia).
  now destruct (e <? 9).
Qed.

Lemma CompressAmount_exact_pos a : 0 < a -> 0 < CompressAmount_exact a.
Proof.
  intros Ha.
  destruct (strip_zeros 9 a 0) as [s e] eqn:Hs.
  destruct (strip_zeros_9 a s e Ha Hs) as (He & Hf & Hpos & Hm).
  rewrite (CompressAmount_exact_eq a s e) by auto.
  destruct (e <? 9) eqn:Hlt; [|lia].
  apply Z.ltb_lt in Hlt. specialize (Hm Hlt).
  pose proof (Z.mod_pos_bound s 10 ltac:(lia)).
  assert (0 <= s / 10) by (apply Z.div_pos; lia).
  lia.
Qed.

(** Amounts below a ninth of 2^64 have an exact form that fits. *)
Lemma CompressAmount_exact_below a :
  0 <= a -> 9 * a < 2 ^ 64 -> CompressAmount_exact a < 2 ^ 64.
Proof.
  intros Ha Hb.
  destruct (Z.eq_dec a 0) as [->|Hne]; [reflexivity|].
  destruct (strip_zeros 9 a 0) as [s e] eqn:Hs.
  destruct (strip_zeros_9 a s e ltac:(lia) Hs) as (He & Hf & Hpos & Hm).
  rewrite (CompressAmount_exact_eq a s e) by (auto; lia).
  pose proof (compress_no_overflow s e Hpos He ltac:(rewrite <- Hf; lia) Hm) as Hno.
  destruct (e <? 9); lia.
Qed.

Lemma amount_roundtrip a :
  0 <= a < 2 ^ 63 -> CompressAmount_exact a < 2 ^ 64 ->
  DecompressAmount (CompressAmount a) = a.
Proof.
  intros Ha Hfit.
  destruct (Z.eq_dec a 0) as [->|Hne]; [reflexivity|].
  pose proof (CompressAmount_exact_pos a ltac:(lia)) as Hcpos.
  destruct (strip_zeros 9 a 0) as [s e] eqn:Hs.
  destruct (strip_zeros_9 a s e ltac:(lia) Hs) as (He & Hf & Hpos & Hm).
  rewrite (CompressAmount_eq a s e) by (auto; lia).
  rewrite (CompressAmount_exact_eq a s e) in Hfit, Hcpos by (auto; lia).
  destruct (pow10_ge e) as [H1 H10]; [lia|].
  assert (Hs63 : s * 10 ^ e < 2 ^ 63) by lia.
  assert (Hsa : s <= s * 10 ^ e) by nia.
  unfold DecompressAmount, add64, mul64, sub64.
  destruct (e <? 9) eqn:Hlt.
  - apply Z.ltb_lt in Hlt. specialize (Hm Hlt).
    pose proof (Z.div_mod s 10 ltac:(lia)) as Hdm.
    pose proof (Z.mod_pos_bound s 10 ltac:(lia)) as Hr.
    assert (0 <= s / 10) by (apply Z.div_pos; lia).
    set (n := s / 10) in *. set (d := s mod 10) in *.
    rewrite wrap64_idem.
    rewrite (wrap64_small (1 + _ + e)) by lia.
    destruct (_ =? 0) eqn:H0; [apply Z.eqb_eq in H0; lia|].
    replace (1 + (n * 9 + (d - 1)) * 10 + e - 1)
      with ((n * 9 + (d - 1)) * 10 + e) by ring.
    rewrite (wrap64_small (_ + e)) by lia.
    assert (He' : ((n * 9 + (d - 1)) * 10 + e) mod 10 = e).
    { rewrite Z.add_comm, Z.mod_add by lia. apply Z.mod_small. lia. }
    assert (Hx : ((n * 9 + (d - 1)) * 10 + e) / 10 = n * 9 + (d - 1)).
    { rewrite Z.add_comm, Z.div_add by lia. rewrite Z.div_small; lia. }
    rewrite He', Hx.
    assert (Hlt' : (e <? 9) = true) by (apply Z.ltb_lt; lia). rewrite Hlt'.
    assert (Hd : (n * 9 + (d - 1)) mod 9 = d - 1).
    { rewrite Z.add_comm, Z.mod_add by lia. apply Z.mod_small. lia. }
    assert (Hn : (n * 9 + (d - 1)) / 9 = n).
    { rewrite Z.add_comm, Z.div_add by lia. rewrite Z.div_small; lia. }
    rewrite Hd, Hn.
    assert (Hsd : n * 10 + (d - 1 + 1) = s) by lia.
    rewrite (wrap64_small (n * 10)) by lia.
    rewrite Hsd.
    rewrite (wrap64_small s) by lia.
    rewrite (wrap64_small (s * 10 ^ e)) by lia.
    rewrite to_int64_small by lia. lia.
  - apply Z.ltb_ge in Hlt. assert (e = 9) as -> by lia.
    change (10 ^ 9) with 1000000000 in *.
    rewrite wrap64_idem.
    rewrite (wrap64_small (1 + _ + 9)) by lia.
    destruct (_ =? 0) eqn:H0; [apply Z.eqb_eq in H0; lia|].
    replace (1 + (s - 1) * 10 + 9 - 1) with ((s - 1) * 10 + 9) by ring.
    rewrite (wrap64_small (_ + 9)) by lia.
    assert (He' : ((s - 1) * 10 + 9) mod 10 = 9).
    { rewrite Z.add_comm, Z.mod_add by lia. reflexivity. }
    assert (Hx : ((s - 1) * 10 + 9) / 10 = s - 1).
    { rewrite Z.add_comm, Z.div_add by lia. reflexivity. }
    rewrite He', Hx. simpl (9 <? 9).
    cbv iota.
    replace (s - 1 + 1) with s by ring.
    rewrite (wrap64_small s) by lia.
    change (10 ^ 9) with 1000000000.
    rewrite (wrap64_small (s * _)) by lia.
    rewrite to_int64_small by lia. lia.
Qed.

(** C1, for the amounts whose compressed form fits 64 bits: for a
    non-negative [Amount] whose exact compressed form is below 2^64,
    [CompressAmount] returns that form and
    [DecompressAmount (CompressAmount a) = a]; so [CompressAmount] is
    injective on these amounts and [DecompressAmount] is its inverse on
    their compressed forms. *)
Theorem amount_codec_inverse a :
  0 <= a < 2 ^ 63 -> CompressAmount_exact a < 2 ^ 64 ->
  CompressAmount a = CompressAmount_exact a
  /\ DecompressAmount (CompressAmount a) = a
  /\ (forall b, 0 <= b < 2 ^ 63 -> CompressAmount_exact b < 2 ^ 64 ->
        CompressAmount a = CompressAmount b -> a = b)
  /\ CompressAmount (DecompressAmount (CompressAmount a)) = CompressAmount a.
Proof.
  intros Ha Hfit.
  pose proof (amount_roundtrip a Ha Hfit) as Hrt.
  repeat split.
  - rewrite CompressAmount_wrap by lia. apply wrap64_small.
    destruct (Z.eq_dec a 0) as [->|Hne]; [split; [reflexivity|assumption]|].
    pose proof (CompressAmount_exact_pos a ltac:(lia)). lia.
  - exact Hrt.
  - intros b Hb Hbfit Heq.
    rewrite <- Hrt, Heq. now apply amount_roundtrip.
  - now rewrite Hrt.
Qed.

Lemma amount_codec_inverse_witness :
  CompressAmount 2100000000000000 = CompressAmount_exact 2100000000000000
  /\ DecompressAmount (CompressAmount 2100000000000000) = 2100000000000000
  /\ (forall b, 0 <= b < 2 ^ 63 -> CompressAmount_exact b < 2 ^ 64 ->
        CompressAmount 2100000000000000 = CompressAmount b -> 2100000000000000 = b)
  /\ CompressAmount (DecompressAmount (CompressAmount 2100000000000000))
     = CompressAmount 2100000000000000.
Proof.
  apply (amount_codec_inverse 2100000000000000).
  - lia.
  - vm_compute. reflexivity.
Defined.

(** C1 as stated fails at the largest [Amount], [2^63 - 1]: the formula
    gives 83010348331692982261 for it, which does not fit [uint64_t]; the
    compressed form is that value modulo 2^64, and it decompresses to
    another amount (10248191152058973120 as 64 bits). *)
Lemma amount_roundtrip_fails_at_max :
  0 <= 9223372036854775807 < 2 ^ 63
  /\ CompressAmount_exact 9223372036854775807 = 83010348331692982261
  /\ CompressAmount 9223372036854775807 = 9223372036854775797
  /\ wrap64 (DecompressAmount (CompressAmount 9223372036854775807))
     = 10248191152058973120
  /\ DecompressAmount (CompressAmount 9223372036854775807) <> 9223372036854775807.
Proof.
  split; [lia|].
  split; [vm_compute; reflexivity|].
  split; [vm_compute; reflexivity|].
  split; [vm_compute; reflexivity|].
  vm_compute. discriminate.
Qed.

(** C3 as stated fails at the largest [Amount], [2^63 - 1]: it has no
    trailing zero ([e = 0]), its last digit is 7 and the rest is
    922337203685477580, so the formula gives 83010348331692982261, which
    no [uint64_t] holds; [CompressAmount] returns that value modulo 2^64. *)
Lemma CompressAmount_formula_overflows :
  0 < 9223372036854775807 < 2 ^ 64
  /\ (10 ^ 0 | 9223372036854775807)
  /\ 9223372036854775807 mod 10 ^ (0 + 1) = 7
  /\ 1 + (9223372036854775807 / 10 ^ 0 / 10 * 9
          + ((9223372036854775807 / 10 ^ 0) mod 10 - 1)) * 10 + 0
     = 83010348331692982261
  /\ CompressAmount 9223372036854775807 = 9223372036854775797
  /\ CompressAmount 9223372036854775807
     <> 1 + (9223372036854775807 / 10 ^ 0 / 10 * 9
             + ((9223372036854775807 / 10 ^ 0) mod 10 - 1)) * 10 + 0.
Proof.
  split; [lia|].
  split; [exists 9223372036854775807; reflexivity|].
  split; [reflexivity|].
  split; [vm_compute; reflexivity|].
  split; [vm_compute; reflexivity|].
  vm_compute. discriminate.
Qed.

(** C3, with the arithmetic of [uint64_t]: [CompressAmount] maps 0 to 0;
    for a positive amount whose number of trailing decimal zeros, capped
    at nine, is [e], and whose value with these zeros stripped is [s]:
    when [e < 9], with [d] the last digit of [s] (between 1 and 9) and [n]
    the rest, the result is [1 + (n*9 + (d-1))*10 + e] reduced modulo
    2^64, and it is that value itself exactly when the value is below
    2^64, which it is for every amount below a ninth of 2^64; when
    [e = 9], the result is [1 + (s-1)*10 + 9] itself; 5_000_000_000 takes
    this second branch. *)
Theorem CompressAmount_formula :
  CompressAmount 0 = 0
  /\ CompressAmount 5000000000 = 1 + (5000000000 / 10 ^ 9 - 1) * 10 + 9
  /\ forall a e,
       0 < a < 2 ^ 64 -> 0 <= e <= 9 ->
       (10 ^ e | a) -> (e < 9 -> ~ (10 ^ (e + 1) | a)) ->
       let s := a / 10 ^ e in
       let d := s mod 10 in
       let n := s / 10 in
       (e < 9 ->
          1 <= d <= 9
          /\ CompressAmount a = wrap64 (1 + (n * 9 + (d - 1)) * 10 + e)
          /\ (CompressAmount a = 1 + (n * 9 + (d - 1)) * 10 + e
              <-> 1 + (n * 9 + (d - 1)) * 10 + e < 2 ^ 64)
          /\ (9 * a < 2 ^ 64 -> 1 + (n * 9 + (d - 1)) * 10 + e < 2 ^ 64))
       /\ (e = 9 -> CompressAmount a = 1 + (s - 1) * 10 + 9).
Proof.
  split; [reflexivity|].
  split; [vm_compute; reflexivity|].
  intros a e Ha He Hdiv Hmax s d n.
  assert (Hpos : 0 < a) by lia.
  pose proof (strip_zeros_exponent a e Hpos He Hdiv Hmax) as Hs.
  fold s in Hs.
  destruct (strip_zeros_9 a s e Hpos Hs) as (_ & Hf & Hspos & Hm).
  pose proof (CompressAmount_eq a s e ltac:(lia) Hs) as Hc.
  split.
  - intros Hlt.
    assert (Hlt' : (e <? 9) = true) by now apply Z.ltb_lt.
    rewrite Hlt' in Hc.
    pose proof (Z.mod_pos_bound s 10 ltac:(lia)) as Hr.
    assert (Hn : 0 <= s / 10) by (apply Z.div_pos; lia).
    specialize (Hm Hlt). fold d in Hm, Hr. fold n in Hn.
    split; [lia|]. split; [exact Hc|]. split.
    + split.
      * intros Heq. rewrite <- Heq, Hc.
        unfold wrap64, wrap. apply Z.mod_pos_bound. lia.
      * intros Hfit. rewrite Hc. apply wrap64_small. lia.
    + intros H9.
      pose proof (compress_no_overflow s e Hspos He ltac:(rewrite <- Hf; lia)
                    ltac:(intros _; exact Hm)) as Hno.
      rewrite Hlt' in Hno. fold d n in Hno. lia.
  - intros ->.
    change (9 <? 9) with false in Hc.
    rewrite Hc. apply wrap64_small.
    change (10 ^ 9) with 1000000000 in Hf. lia.
Qed.

Lemma CompressAmount_formula_witness :
  CompressAmount 5000000000 = 1 + (5000000000 / 10 ^ 9 - 1) * 10 + 9
  /\ CompressAmount 1234000 = wrap64 (1 + (1234 / 10 * 9 + (1234 mod 10 - 1)) * 10 + 3)
  /\ 1 + (1234 / 10 * 9 + (1234 mod 10 - 1)) * 10 + 3 < 2 ^ 64.
Proof.
  pose proof (proj2 (proj2 CompressAmount_formula)) as H.
  split.
  - assert (Hdiv : (10 ^ 9 | 5000000000)) by (exists 5; reflexivity).
    exact (proj2 (H 5000000000 9 ltac:(lia) ltac:(lia) Hdiv ltac:(lia)) eq_refl).
  - assert (Hdiv : (10 ^ 3 | 1234000)) by (exists 1234; reflexivity).
    assert (Hmax : 3 < 9 -> ~ (10 ^ (3 + 1) | 1234000))
      by (intros _ [q Hq]; lia).
    pose proof (proj1 (H 1234000 3 ltac:(lia) ltac:(lia) Hdiv Hmax) ltac:(lia))
      as (_ & Hw & _ & Hfit).
    split; [exact Hw|]. apply Hfit. lia.
Defined.

(** ** Bytes *)

Lemma byte_to_Z_range b : 0 <= byte_to_Z b < 256.
Proof.
  unfold byte_to_Z. pose proof (Byte.to_N_bounded b). lia.
Qed.

Lemma byte_to_of_Z z : 0 <= z < 256 -> byte_to_Z (byte_of_Z z) = z.
Proof.
  intros Hz. unfold byte_to_Z, byte_of_Z.
  rewrite Z.mod_small by lia.
  destruct (Byte.of_N (Z.to_N z)) as [b|] eqn:Hb.
  - apply Byte.to_of_N in Hb. rewrite Hb. lia.
  - apply Byte.of_N_None_iff in Hb. lia.
Qed.

Lemma bytes_eqb_eq a : forall b, bytes_eqb a b = true <-> a = b.
Proof.
  induction a as [|x a IH]; intros [|y b]; simpl; split; try congruence; auto.
  - intros H. apply andb_true_iff in H as [Hxy Hab].
    apply Byte.byte_dec_bl in Hxy. apply IH in Hab. congruence.
  - intros H. injection H as -> ->.
    apply andb_true_iff. split; [now apply Byte.byte_dec_lb|now apply IH].
Qed.

Lemma bytes_eqb_refl a : bytes_eqb a a = true.
Proof. now apply bytes_eqb_eq. Qed.

Lemma size_app a b : size (a ++ b) = size a + size b.
Proof. unfold size. rewrite length_app. lia. Qed.

Lemma size_nonneg a : 0 <= size a.
Proof. unfold size. lia. Qed.

(** ** The variable-length integer *)

Lemma low7 n : Z.land n 127 = n mod 128.
Proof. change 127 with (Z.ones 7). now rewrite Z.land_ones by lia. Qed.

Lemma group_low n flag :
  flag = 0 \/ flag = 128 ->
  Z.land (Z.lor (Z.land n 127) flag) 127 = Z.land n 127.
Proof.
  intros Hf. rewrite Z.land_lor_distr_l, <- Z.land_assoc.
  change (Z.land 127 127) with 127.
  destruct Hf as [-> | ->].
  - change (Z.land 0 127) with 0. apply Z.lor_0_r.
  - change (Z.land 128 127) with 0. apply Z.lor_0_r.
Qed.

Lemma group_flag n flag :
  flag = 0 \/ flag = 128 ->
  Z.land (Z.lor (Z.land n 127) flag) 128 = flag.
Proof.
  intros Hf. rewrite Z.land_lor_distr_l, <- Z.land_assoc.
  change (Z.land 127 128) with 0. rewrite Z.land_0_r, Z.lor_0_l.
  destruct Hf as [-> | ->]; reflexivity.
Qed.

Lemma group_range n flag :
  flag = 0 \/ flag = 128 ->
  0 <= Z.lor (Z.land n 127) flag < 256.
Proof.
  intros Hf.
  assert (Hlow : 0 <= Z.land n 127 < 128).
  { rewrite low7. apply Z.mod_pos_bound. lia. }
  split.
  - apply Z.lor_nonneg. destruct Hf; subst; lia.
  - destruct Hf as [-> | ->]; [rewrite Z.lor_0_r; lia|].
    rewrite <- Z.lxor_lor.
    + rewrite <- Z.add_nocarry_lxor; [lia|].
      rewrite <- Z.land_assoc. change (Z.land 127 128) with 0. apply Z.land_0_r.
    + rewrite <- Z.land_assoc. change (Z.land 127 128) with 0. apply Z.land_0_r.
Qed.

Lemma regroup n : Z.lor (Z.shiftl (Z.shiftr n 7) 7) (Z.land n 127) = n.
Proof.
  change 127 with (Z.ones 7).
  rewrite <- Z.ldiff_ones_r by lia. apply Z.lor_ldiff_and.
Qed.

Lemma wrap_small w z : 0 <= z < 2 ^ w -> wrap w z = z.
Proof. intros. unfold wrap. now apply Z.mod_small. Qed.

(** One byte of a written integer, read back. *)
Lemma read_group w acc n flag rest :
  flag = 0 \/ flag = 128 ->
  0 <= n < 2 ^ w ->
  acc = Z.shiftr n 7 ->
  ReadVarInt_loop w acc (byte_of_Z (Z.lor (Z.land n 127) flag) :: rest)
  = if flag =? 0 then (Some n, rest)
    else ReadVarInt_loop w (wrap w (n + 1)) rest.
Proof.
  intros Hf Hn ->. cbn [ReadVarInt_loop].
  rewrite byte_to_of_Z by now apply group_range.
  rewrite group_low, group_flag, regroup by assumption.
  rewrite wrap_small by assumption. reflexivity.
Qed.

(** The bytes written for the continued prefix of an integer read back as
    that prefix, plus the one the writer subtracted. *)
Lemma read_continued w fuel : forall n len rest,
  0 < len ->
  0 <= n -> n + 1 < 2 ^ w -> n < 128 ^ (Z.of_nat fuel + 1) ->
  ReadVarInt_loop w 0 (WriteVarInt_loop fuel n len ++ rest)
  = ReadVarInt_loop w (n + 1) rest.
Proof.
  induction fuel as [|fuel IH]; intros n len rest Hlen Hn Hw Hf.
  - change (128 ^ (Z.of_nat 0 + 1)) with 128 in Hf.
    cbn [WriteVarInt_loop].
    destruct (n <=? 127) eqn:Hle; [|apply Z.leb_gt in Hle; lia].
    destruct (len =? 0) eqn:Hl; [apply Z.eqb_eq in Hl; lia|].
    cbn [app]. rewrite read_group; [|auto|lia|].
    + cbn. now rewrite wrap_small by lia.
    + rewrite Z.shiftr_div_pow2 by lia. change (2 ^ 7) with 128.
      rewrite Z.div_small; lia.
  - cbn [WriteVarInt_loop].
    destruct (len =? 0) eqn:Hl; [apply Z.eqb_eq in Hl; lia|].
    destruct (n <=? 127) eqn:Hle.
    + apply Z.leb_le in Hle.
      cbn [app]. rewrite read_group; [|auto|lia|].
      * cbn. now rewrite wrap_small by lia.
      * rewrite Z.shiftr_div_pow2 by lia. change (2 ^ 7) with 128.
        rewrite Z.div_small; lia.
    + apply Z.leb_gt in Hle.
      assert (Hq : Z.shiftr n 7 = n / 128).
      { rewrite Z.shiftr_div_pow2 by lia. reflexivity. }
      assert (Hq1 : 1 <= n / 128) by (apply Z.div_le_lower_bound; lia).
      assert (Hq2 : n / 128 <= n) by (apply Z.div_le_upper_bound; lia).
      assert (Hq3 : n / 128 < 128 ^ (Z.of_nat fuel + 1)).
      { apply Z.div_lt_upper_bound; [lia|].
        replace (Z.of_nat (S fuel) + 1) with (Z.succ (Z.of_nat fuel + 1)) in Hf by lia.
        rewrite Z.pow_succ_r in Hf by lia. lia. }
      rewrite <- app_assoc. rewrite IH by lia.
      cbn [app].
      replace (Z.shiftr n 7 - 1 + 1) with (Z.shiftr n 7) by lia.
      rewrite read_group; [|auto|lia|reflexivity].
      cbn. now rewrite wrap_small by lia.
Qed.

Lemma ReadVarInt_loop_Write w fuel n rest :
  0 <= n < 2 ^ w -> 2 ^ w <= 128 ^ (Z.of_nat fuel + 1) ->
  ReadVarInt_loop w 0 (WriteVarInt_loop fuel n 0 ++ rest) = (Some n, rest).
Proof.
  intros Hn Hf.
  assert (Hsmall : n <= 127 -> Z.shiftr n 7 = 0).
  { intros. rewrite Z.shiftr_div_pow2 by lia. change (2 ^ 7) with 128.
    apply Z.div_small. lia. }
  destruct fuel as [|fuel]; cbn [WriteVarInt_loop].
  - change (128 ^ (Z.of_nat 0 + 1)) with 128 in Hf.
    destruct (n <=? 127) eqn:Hle; [|apply Z.leb_gt in Hle; lia].
    cbn [app Z.eqb]. rewrite read_group; auto.
    symmetry. apply Hsmall. lia.
  - destruct (n <=? 127) eqn:Hle.
    + apply Z.leb_le in Hle.
      cbn [app Z.eqb]. rewrite read_group; auto.
      symmetry. now apply Hsmall.
    + apply Z.leb_gt in Hle.
      assert (Hq : Z.shiftr n 7 = n / 128).
      { rewrite Z.shiftr_div_pow2 by lia. reflexivity. }
      assert (Hq1 : 1 <= n / 128) by (apply Z.div_le_lower_bound; lia).
      assert (Hq2 : n / 128 <= n) by (apply Z.div_le_upper_bound; lia).
      assert (Hq3 : n / 128 < 128 ^ (Z.of_nat fuel + 1)).
      { apply Z.div_lt_upper_bound; [lia|].
        replace (Z.of_nat (S fuel) + 1) with (Z.succ (Z.of_nat fuel + 1)) in Hf by lia.
        rewrite Z.pow_succ_r in Hf by lia. lia. }
      rewrite <- app_assoc. rewrite read_continued by lia.
      cbn [app Z.eqb].
      replace (Z.shiftr n 7 - 1 + 1) with (Z.shiftr n 7) by lia.
      rewrite read_group; auto.
Qed.

(** Reading only moves the cursor forward: what is left is a suffix of
    the stream, and at least one byte was consumed. *)
Lemma ReadVarInt_loop_suffix w : forall s acc n s',
  ReadVarInt_loop w acc s = (Some n, s') ->
  exists pre, pre <> [] /\ s = pre ++ s'.
Proof.
  induction s as [|ch s IH]; intros acc n s' H; simpl in H; [discriminate|].
  destruct (Z.land (byte_to_Z ch) 128 =? 0).
  - injection H as <- <-. exists [ch]. split; [discriminate|reflexivity].
  - apply IH in H as (pre & _ & ->).
    exists (ch :: pre). split; [discriminate|reflexivity].
Qed.

(** The bytes that a read consumes are by themselves the encoding of the
    integer read. *)
Lemma ReadVarInt_loop_prefix w : forall s acc n s',
  ReadVarInt_loop w acc s = (Some n, s') ->
  exists pre,
    pre <> [] /\ s = pre ++ s' /\ ReadVarInt_loop w acc pre = (Some n, []).
Proof.
  induction s as [|ch s IH]; intros acc n s' H; cbn [ReadVarInt_loop] in H;
    [discriminate|].
  destruct (Z.land (byte_to_Z ch) 128 =? 0) eqn:Hbit.
  - injection H as <- <-. exists [ch].
    repeat split; [discriminate|].
    cbn [ReadVarInt_loop]. now rewrite Hbit.
  - apply IH in H as (pre & _ & -> & Hpre).
    exists (ch :: pre). repeat split; [discriminate|].
    cbn [ReadVarInt_loop]. now rewrite Hbit.
Qed.

Lemma ReadVarInt_loop_range w : forall s acc n s',
  0 < w ->
  ReadVarInt_loop w acc s = (Some n, s') -> 0 <= n < 2 ^ w.
Proof.
  induction s as [|ch s IH]; intros acc n s' Hw H; simpl in H; [discriminate|].
  destruct (Z.land (byte_to_Z ch) 128 =? 0).
  - injection H as <- <-. unfold wrap. apply Z.mod_pos_bound.
    apply Z.pow_pos_nonneg; lia.
  - eapply IH; eauto.
Qed.

(** ** CScriptCompressor *)

Section ScriptCodec.
Context {env : Collaborators}.

Import CScriptCompressor.

Lemma ReadVarInt_inv {X} w (x : X) s n st :
  ReadVarInt w (x, s) = Returned n st ->
  ReadVarInt_loop w 0 s = (Some n, snd st) /\ fst st = x.
Proof.
  unfold ReadVarInt. cbn [fst snd].
  destruct (ReadVarInt_loop w 0 s) as [[m|] s']; intros H; [|discriminate].
  injection H as <- <-. auto.
Qed.

(** [Unserialize], branch by branch. *)
Lemma Unserialize_eq script0 s :
  Unserialize (script0, s) =
  match ReadVarInt_loop 32 0 s with
  | (None, s') => Thrown (script0, s')
  | (Some tag, s1) =>
      if tag <? 6 then
        if GetSpecialSize tag <=? size s1
        then (Decompress tag (firstn (Z.to_nat (GetSpecialSize tag)) s1) ;;; ret tt)
               (script0, skipn (Z.to_nat (GetSpecialSize tag)) s1)
        else Thrown (script0, s1)
      else
        let n := wrap32 (tag - 6) in
        if n >? MAX_SCRIPT_SIZE_AFTER_GENESIS then
          if n <=? size s1
          then Returned tt (script0 ++ [OP_FALSE; OP_RETURN], skipn (Z.to_nat n) s1)
          else Thrown (script0 ++ [OP_FALSE; OP_RETURN], s1)
        else
          if n <=? size s1
          then Returned tt (firstn (Z.to_nat n) s1, skipn (Z.to_nat n) s1)
          else Thrown (resize n script0, s1)
  end.
Proof.
  unfold Unserialize, bind at 1, ReadVarInt. cbn [fst snd].
  destruct (ReadVarInt_loop 32 0 s) as [[tag|] s1]; [|reflexivity].
  unfold nSpecialScripts.
  destruct (tag <? 6).
  - unfold bind at 1, read. cbn [fst snd].
    destruct (GetSpecialSize tag <=? size s1); reflexivity.
  - cbv zeta.
    destruct (wrap32 (tag - 6) >? MAX_SCRIPT_SIZE_AFTER_GENESIS).
    + unfold bind, push_opcode, modify_obj, ignore. cbn [fst snd].
      rewrite <- app_assoc. cbn [app].
      destruct (wrap32 (tag - 6) <=? size s1); reflexivity.
    + unfold NonSpecialScriptUnserializer_Unserialize, bind, modify_obj, read.
      cbn [fst snd].
      destruct (wrap32 (tag - 6) <=? size s1); reflexivity.
Qed.

(** [Decompress] never throws and never touches the stream. *)
Lemma Decompress_returns tag vch st :
  exists ok script', Decompress tag vch st = Returned ok (script', snd st).
Proof.
  unfold Decompress.
  repeat match goal with
         | |- context [if ?c then _ else _] => destruct c
         | |- context [match decompress_point ?a ?b with _ => _ end] =>
             destruct (decompress_point a b)
         end;
    unfold bind, modify_obj, ret; cbn [fst snd]; destruct st; eauto.
Qed.

(** What is left of a special decode once the payload is read. *)
Lemma Decompress_then_ret tag vch st :
  exists script', (Decompress tag vch ;;; ret tt) st = Returned tt (script', snd st).
Proof.
  destruct (Decompress_returns tag vch st) as (ok & script' & Hd).
  exists script'. unfold bind. now rewrite Hd.
Qed.

Lemma size_firstn_skipn n (s : list byte) :
  0 <= n <= size s ->
  size (firstn (Z.to_nat n) s) = n /\ size (skipn (Z.to_nat n) s) = size s - n.
Proof.
  unfold size. intros Hn.
  rewrite length_firstn, length_skipn. lia.
Qed.

Lemma GetSpecialSize_range tag : 0 <= GetSpecialSize tag <= 32.
Proof.
  unfold GetSpecialSize.
  repeat match goal with |- context [if ?c then _ else _] => destruct c end; lia.
Qed.

Lemma firstn_size_app (a b : list byte) : firstn (Z.to_nat (size a)) (a ++ b) = a.
Proof.
  unfold size. rewrite Nat2Z.id.
  induction a as [|x a IH]; simpl; [now destruct b|now rewrite IH].
Qed.

Lemma skipn_size_app (a b : list byte) : skipn (Z.to_nat (size a)) (a ++ b) = b.
Proof.
  unfold size. rewrite Nat2Z.id.
  induction a as [|x a IH]; simpl; auto.
Qed.

Lemma tag_of_raw tag s s1 :
  ReadVarInt_loop 32 0 s = (Some tag, s1) ->
  (tag <? 6) = false ->
  wrap32 (tag - 6) = tag - 6 /\ 0 <= tag - 6.
Proof.
  intros Hr Ht. apply Z.ltb_ge in Ht.
  apply ReadVarInt_loop_range in Hr; [|lia].
  unfold wrap32. rewrite wrap_small; lia.
Qed.

(** C4: when [Unserialize] has read its tag, the stream is the bytes of
    the tag, which by themselves encode it, followed by what the read left;
    the call returns exactly when what is left holds the declared payload
    ([GetSpecialSize] of a special tag, the tag minus six otherwise), and
    it then leaves the cursor at the first byte behind that payload, in
    the special branch, the raw branch and the oversized branch alike: the
    bytes consumed are those of the tag plus the payload length.  When the
    payload is not there the call throws with the cursor behind the
    tag. *)
Theorem Unserialize_cursor script0 s tag s1 :
  ReadVarInt 32 (script0, s) = Returned tag (script0, s1) ->
  let payload :=
    if tag <? nSpecialScripts then GetSpecialSize tag else tag - nSpecialScripts in
  exists tag_bytes,
    s = tag_bytes ++ s1
    /\ tag_bytes <> []
    /\ ReadVarInt_loop 32 0 tag_bytes = (Some tag, [])
    /\ (payload <= size s1 ->
        exists script',
          Unserialize (script0, s)
            = Returned tt (script', skipn (Z.to_nat payload) s1)
          /\ s = tag_bytes ++ firstn (Z.to_nat payload) s1
                   ++ skipn (Z.to_nat payload) s1
          /\ size (firstn (Z.to_nat payload) s1) = payload
          /\ size s - size (skipn (Z.to_nat payload) s1)
             = size tag_bytes + payload)
    /\ (size s1 < payload ->
        exists script', Unserialize (script0, s) = Thrown (script', s1)).
Proof.
  intros Hr payload.
  apply ReadVarInt_inv in Hr as [Hr _]. cbn [snd] in Hr.
  destruct (ReadVarInt_loop_prefix _ _ _ _ _ Hr) as (tag_bytes & Hne & Hs & Hpre).
  exists tag_bytes. split; [exact Hs|]. split; [exact Hne|]. split; [exact Hpre|].
  assert (Hsplit : forall n, 0 <= n <= size s1 ->
            s = tag_bytes ++ firstn (Z.to_nat n) s1 ++ skipn (Z.to_nat n) s1
            /\ size (firstn (Z.to_nat n) s1) = n
            /\ size s - size (skipn (Z.to_nat n) s1) = size tag_bytes + n).
  { intros n Hn. rewrite firstn_skipn.
    destruct (size_firstn_skipn n s1 Hn) as [Hf Hk].
    repeat split; auto. rewrite Hk, Hs, size_app. lia. }
  rewrite Unserialize_eq, Hr. subst payload. unfold nSpecialScripts.
  destruct (tag <? 6) eqn:Ht.
  - pose proof (GetSpecialSize_range tag) as Hg.
    split; intros Hp.
    + destruct (GetSpecialSize tag <=? size s1) eqn:Hle; [|apply Z.leb_gt in Hle; lia].
      match goal with
      | |- context [bind ?m ?k ?st] =>
          destruct (Decompress_then_ret tag (firstn (Z.to_nat (GetSpecialSize tag)) s1) st)
            as (script' & Hd)
      end.
      destruct (Hsplit (GetSpecialSize tag)) as (H1 & H2 & H3); [lia|].
      exists script'. repeat split; auto.
    + destruct (GetSpecialSize tag <=? size s1) eqn:Hle; [apply Z.leb_le in Hle; lia|].
      eauto.
  - destruct (tag_of_raw _ _ _ Hr Ht) as [Hw Hn]. cbv zeta. rewrite Hw.
    split; intros Hp.
    + destruct (tag - 6 <=? size s1) eqn:Hle; [|apply Z.leb_gt in Hle; lia].
      destruct (Hsplit (tag - 6)) as (H1 & H2 & H3); [lia|].
      destruct (tag - 6 >? MAX_SCRIPT_SIZE_AFTER_GENESIS);
        eexists; repeat split; eauto.
    + destruct (tag - 6 <=? size s1) eqn:Hle; [apply Z.leb_le in Hle; lia|].
      destruct (tag - 6 >? MAX_SCRIPT_SIZE_AFTER_GENESIS); eauto.
Qed.

(** C6: [GetSpecialSize] is 20 for the tags 0 and 1 and 32 for the tags 2
    to 5; and a decode whose tag is below 6 reads exactly
    [GetSpecialSize tag] bytes behind the tag: these bytes are what
    [Decompress] receives, the cursor stands behind them, and a stream
    that holds fewer makes the read throw with the script untouched. *)
Theorem Unserialize_special_reads_GetSpecialSize :
  (GetSpecialSize 0 = 20 /\ GetSpecialSize 1 = 20 /\ GetSpecialSize 2 = 32
   /\ GetSpecialSize 3 = 32 /\ GetSpecialSize 4 = 32 /\ GetSpecialSize 5 = 32)
  /\ forall script0 s tag s1,
       ReadVarInt 32 (script0, s) = Returned tag (script0, s1) ->
       tag < nSpecialScripts ->
       (GetSpecialSize tag <= size s1 ->
          Unserialize (script0, s)
            = (Decompress tag (firstn (Z.to_nat (GetSpecialSize tag)) s1) ;;; ret tt)
                (script0, skipn (Z.to_nat (GetSpecialSize tag)) s1)
          /\ size (firstn (Z.to_nat (GetSpecialSize tag)) s1) = GetSpecialSize tag
          /\ snd (final_state (Unserialize (script0, s)))
               = skipn (Z.to_nat (GetSpecialSize tag)) s1)
       /\ (size s1 < GetSpecialSize tag ->
             Unserialize (script0, s) = Thrown (script0, s1)).
Proof.
  split; [repeat split; reflexivity|].
  intros script0 s tag s1 Hr Ht. unfold nSpecialScripts in Ht.
  apply ReadVarInt_inv in Hr as [Hr _]. cbn [snd] in Hr.
  rewrite Unserialize_eq, Hr.
  assert (Hlt : (tag <? 6) = true) by now apply Z.ltb_lt.
  rewrite Hlt.
  pose proof (GetSpecialSize_range tag) as Hg.
  split; intros Hp.
  - destruct (GetSpecialSize tag <=? size s1) eqn:Hle; [|apply Z.leb_gt in Hle; lia].
    split; [reflexivity|]. split.
    + now apply size_firstn_skipn.
    + match goal with
      | |- context [bind ?m ?k ?st] =>
          destruct (Decompress_then_ret tag (firstn (Z.to_nat (GetSpecialSize tag)) s1) st)
            as (script' & Hd)
      end.
      now rewrite Hd.
  - destruct (GetSpecialSize tag <=? size s1) eqn:Hle; [apply Z.leb_le in Hle; lia|].
    reflexivity.
Qed.

(** C9: on the oversized branch the two placeholder opcodes are appended to
    what the bound script holds: whether the skip then succeeds or throws,
    the script is its prior contents followed by OP_FALSE OP_RETURN; when
    the stream holds the declared bytes the call returns with the cursor
    behind them; and the script is the bare placeholder exactly when it was
    empty before the call. *)
Theorem Unserialize_oversized_appends script0 s tag s1 :
  ReadVarInt 32 (script0, s) = Returned tag (script0, s1) ->
  nSpecialScripts <= tag ->
  tag - nSpecialScripts > MAX_SCRIPT_SIZE_AFTER_GENESIS ->
  fst (final_state (Unserialize (script0, s))) = script0 ++ [OP_FALSE; OP_RETURN]
  /\ (tag - nSpecialScripts <= size s1 ->
      Unserialize (script0, s)
        = Returned tt (script0 ++ [OP_FALSE; OP_RETURN],
                       skipn (Z.to_nat (tag - nSpecialScripts)) s1))
  /\ (script0 ++ [OP_FALSE; OP_RETURN] = [OP_FALSE; OP_RETURN] <-> script0 = []).
Proof.
  intros Hr Ht Hmax. unfold nSpecialScripts in *.
  apply ReadVarInt_inv in Hr as [Hr _]. cbn [snd] in Hr.
  assert (Hge : (tag <? 6) = false) by now apply Z.ltb_ge.
  destruct (tag_of_raw _ _ _ Hr Hge) as [Hw Hn].
  rewrite Unserialize_eq, Hr, Hge. cbv zeta. rewrite Hw.
  assert (Hgt : (tag - 6 >? MAX_SCRIPT_SIZE_AFTER_GENESIS) = true)
    by (apply Z.gtb_lt; lia).
  rewrite Hgt.
  split; [|split].
  - destruct (tag - 6 <=? size s1); reflexivity.
  - intros Hp. apply Z.leb_le in Hp. now rewrite Hp.
  - split; intros H.
    + change [OP_FALSE; OP_RETURN] with ([] ++ [OP_FALSE; OP_RETURN]) in H at 2.
      now apply app_inv_tail in H.
    + now subst.
Qed.

(** *** The encoder *)

Lemma Serialize_app script s : Serialize script s = s ++ Serialize script [].
Proof.
  unfold Serialize, write.
  destruct (Compress script); cbn [app]; [reflexivity|].
  now rewrite app_assoc.
Qed.

(** Only scripts of 25, 23, 35 or 67 bytes have a special form. *)
Lemma Compress_None_size script :
  size script <> 25 -> size script <> 23 -> size script <> 35 -> size script <> 67 ->
  Compress script = None.
Proof.
  intros H25 H23 H35 H67.
  apply Z.eqb_neq in H25, H23, H35, H67.
  unfold Compress, IsToKeyID, IsToScriptID, IsToPubKey.
  now rewrite H25, H23, H35, H67.
Qed.

(** A special form starts with a tag byte between 0 and 5. *)
Lemma Compress_tag script compr :
  Compress script = Some compr ->
  exists tag payload, compr = byte_of_Z tag :: payload /\ 0 <= tag <= 5.
Proof.
  unfold Compress.
  destruct (IsToKeyID script) as [keyID|].
  { intros H. injection H as <-. exists 0, keyID. split; [reflexivity|lia]. }
  destruct (IsToScriptID script) as [scriptID|].
  { intros H. injection H as <-. exists 1, scriptID. split; [reflexivity|lia]. }
  destruct (IsToPubKey script) as [pubkey|]; [|discriminate].
  destruct (Byte.eqb (nth 0 pubkey x00) x02) eqn:H2.
  { apply Byte.byte_dec_bl in H2. rewrite H2. cbn [orb].
    intros H. injection H as <-. exists 2. eexists. split; [reflexivity|lia]. }
  destruct (Byte.eqb (nth 0 pubkey x00) x03) eqn:H3.
  { apply Byte.byte_dec_bl in H3. rewrite H3. cbn [orb].
    intros H. injection H as <-. exists 3. eexists. split; [reflexivity|lia]. }
  cbn [orb].
  destruct (Byte.eqb (nth 0 pubkey x00) x04); [|discriminate].
  intros H. injection H as <-.
  destruct (Z.odd _).
  - exists 5. eexists. split; [reflexivity|lia].
  - exists 4. eexists. split; [reflexivity|lia].
Qed.

(** A tag byte below 6 is its own variable-length encoding. *)
Lemma ReadVarInt_loop_tag tag rest :
  0 <= tag <= 5 ->
  ReadVarInt_loop 32 0 (byte_of_Z tag :: rest) = (Some tag, rest).
Proof.
  intros Ht.
  assert (H : tag = 0 \/ tag = 1 \/ tag = 2 \/ tag = 3 \/ tag = 4 \/ tag = 5) by lia.
  destruct H as [->|[->|[->|[->|[->| ->]]]]]; reflexivity.
Qed.

Lemma raw_tag_fits script :
  size script + 6 < 2 ^ 32 ->
  wrap32 (size script + nSpecialScripts) = size script + 6
  /\ 0 <= size script + 6 < 2 ^ 32.
Proof.
  intros H. pose proof (size_nonneg script). unfold nSpecialScripts, wrap32.
  rewrite wrap_small; lia.
Qed.

(** The raw form: the integer of the length plus 6, then the script. *)
Lemma Serialize_raw script s :
  Compress script = None ->
  size script + 6 < 2 ^ 32 ->
  Serialize script s = s ++ WriteVarInt 32 (size script + 6) ++ script.
Proof.
  intros Hc Hlen.
  destruct (raw_tag_fits script Hlen) as [Hw Hr].
  unfold Serialize, write. rewrite Hc. cbv zeta. rewrite Hw.
  now rewrite app_assoc.
Qed.

Lemma ReadVarInt_loop_raw script rest :
  Compress script = None ->
  size script + 6 < 2 ^ 32 ->
  ReadVarInt_loop 32 0 (Serialize script [] ++ rest)
  = (Some (size script + 6), script ++ rest).
Proof.
  intros Hc Hlen.
  destruct (raw_tag_fits script Hlen) as [Hw Hr].
  rewrite Serialize_raw by assumption. cbn [app]. rewrite <- app_assoc.
  unfold WriteVarInt. rewrite wrap_small by assumption.
  apply ReadVarInt_loop_Write; [assumption|vm_compute; congruence].
Qed.

(** The sizes that the class comment of [CScriptCompressor] gives for the
    raw form: one byte more than the script up to 121 bytes, two bytes
    more up to 16505 bytes. *)
Lemma Serialize_raw_size script :
  Compress script = None ->
  (size script <= 121 -> size (Serialize script []) = 1 + size script)
  /\ (121 < size script <= 16505 -> size (Serialize script []) = 2 + size script).
Proof.
  intros Hc. pose proof (size_nonneg script) as H0.
  split; intros Hs.
  - rewrite Serialize_raw by (auto; lia). cbn [app]. rewrite size_app. f_equal.
    unfold WriteVarInt. rewrite wrap_small by lia.
    change (Z.to_nat ((32 + 6) / 7)) with 5%nat. cbn [WriteVarInt_loop].
    destruct (size script + 6 <=? 127) eqn:Hle; [reflexivity|].
    apply Z.leb_gt in Hle. lia.
  - rewrite Serialize_raw by (auto; lia). cbn [app]. rewrite size_app. f_equal.
    unfold WriteVarInt. rewrite wrap_small by lia.
    change (Z.to_nat ((32 + 6) / 7)) with 5%nat. cbn [WriteVarInt_loop].
    destruct (size script + 6 <=? 127) eqn:Hle; [apply Z.leb_le in Hle; lia|].
    assert (Hq : Z.shiftr (size script + 6) 7 - 1 <= 127).
    { rewrite Z.shiftr_div_pow2 by lia. change (2 ^ 7) with 128.
      assert (size script + 6 < 129 * 128) by lia.
      assert ((size script + 6) / 128 < 129) by (apply Z.div_lt_upper_bound; lia).
      lia. }
    apply Z.leb_le in Hq. rewrite Hq. reflexivity.
Qed.

(** C5, for scripts of fewer than 2^32 - 6 bytes: for a script that
    matches no special shape, [Serialize] writes the variable-length
    integer of the script's length plus 6 and then the script's bytes; the
    tag read back is that length plus 6; and when the length does not
    exceed the maximum, [Unserialize] rebuilds the script byte for byte,
    whatever the bound script held, and leaves the cursor behind it. *)
Theorem Serialize_raw_roundtrip script s :
  Compress script = None ->
  size script + 6 < 2 ^ 32 ->
  Serialize script s = s ++ WriteVarInt 32 (size script + 6) ++ script
  /\ (forall (script0 : CScript) rest,
        ReadVarInt 32 (script0, Serialize script [] ++ rest)
          = Returned (size script + 6) (script0, script ++ rest))
  /\ (size script <= MAX_SCRIPT_SIZE_AFTER_GENESIS ->
      forall script0 rest,
        Unserialize (script0, Serialize script [] ++ rest) = Returned tt (script, rest)).
Proof.
  intros Hc Hlen.
  split; [now apply Serialize_raw|].
  pose proof (ReadVarInt_loop_raw script) as Hread.
  split.
  - intros script0 rest. unfold ReadVarInt. cbn [fst snd]. now rewrite Hread.
  - intros Hmax script0 rest.
    rewrite Unserialize_eq, Hread by assumption.
    pose proof (size_nonneg script).
    destruct (size script + 6 <? 6) eqn:Ht; [apply Z.ltb_lt in Ht; lia|].
    cbv zeta.
    replace (size script + 6 - 6) with (size script) by lia.
    unfold wrap32. rewrite wrap_small by lia.
    destruct (size script >? MAX_SCRIPT_SIZE_AFTER_GENESIS) eqn:Hgt;
      [apply Z.gtb_lt in Hgt; lia|].
    destruct (size script <=? size (script ++ rest)) eqn:Hle.
    + now rewrite firstn_size_app, skipn_size_app.
    + apply Z.leb_gt in Hle. rewrite size_app in Hle.
      pose proof (size_nonneg rest). lia.
Qed.

(** C10, for scripts of fewer than 2^32 - 6 bytes: [Serialize]
    writes either the special form of [Compress], whose first byte is a
    tag between 0 and 5 and is read back as that tag, or the integer of
    the length plus 6, which is at least 6 and is read back as such, and
    then the script; so the tag of a raw encoding is never a special
    tag. *)
Theorem Serialize_tag_disjoint script s :
  size script + 6 < 2 ^ 32 ->
  (exists tag payload,
      Compress script = Some (byte_of_Z tag :: payload)
      /\ 0 <= tag <= 5
      /\ Serialize script s = s ++ byte_of_Z tag :: payload
      /\ forall (script0 : CScript) rest,
           ReadVarInt 32 (script0, Serialize script [] ++ rest)
             = Returned tag (script0, payload ++ rest))
  \/ (Compress script = None
      /\ Serialize script s = s ++ WriteVarInt 32 (size script + 6) ++ script
      /\ 6 <= size script + 6
      /\ forall (script0 : CScript) rest,
           ReadVarInt 32 (script0, Serialize script [] ++ rest)
             = Returned (size script + 6) (script0, script ++ rest)).
Proof.
  intros Hlen.
  destruct (Compress script) as [compr|] eqn:Hc.
  - left. destruct (Compress_tag _ _ Hc) as (tag & payload & -> & Ht).
    exists tag, payload.
    assert (Hs : forall s', Serialize script s' = s' ++ byte_of_Z tag :: payload).
    { intros s'. unfold Serialize, write. now rewrite Hc. }
    repeat split; try lia; [apply Hs|].
    intros script0 rest. rewrite Hs. cbn [app].
    unfold ReadVarInt. cbn [fst snd]. now rewrite ReadVarInt_loop_tag.
  - right.
    pose proof (size_nonneg script).
    repeat split; [now apply Serialize_raw|lia|].
    intros script0 rest. unfold ReadVarInt. cbn [fst snd].
    now rewrite ReadVarInt_loop_raw.
Qed.

(** *** A script whose length plus six does not fit the tag *)

Lemma wrapping_script_size : size wrapping_script = 4294967290.
Proof.
  unfold size, wrapping_script. rewrite repeat_length. apply Z2Nat.id. lia.
Qed.

Lemma wrapping_script_raw : Compress wrapping_script = None.
Proof.
  apply Compress_None_size; rewrite wrapping_script_size; lia.
Qed.

Lemma wrapping_script_Serialize :
  Serialize wrapping_script [] = byte_of_Z 0 :: wrapping_script.
Proof.
  unfold Serialize. rewrite wrapping_script_raw. cbv zeta.
  rewrite wrapping_script_size.
  change (wrap32 (4294967290 + nSpecialScripts)) with 0.
  change (WriteVarInt 32 0) with [byte_of_Z 0].
  reflexivity.
Qed.

(** The tag 0 sends the decoder into the special branch: it reads 20 bytes
    and builds a pay-to-key-hash script around them. *)
Lemma wrapping_script_Unserialize script0 :
  Unserialize (script0, Serialize wrapping_script [])
  = Returned tt (PayToKeyID (firstn 20 wrapping_script), skipn 20 wrapping_script).
Proof.
  rewrite wrapping_script_Serialize, Unserialize_eq.
  rewrite ReadVarInt_loop_tag by lia.
  change (0 <? 6) with true. cbv iota.
  change (GetSpecialSize 0) with 20.
  rewrite wrapping_script_size.
  change (20 <=? 4294967290) with true. cbv iota.
  change (Z.to_nat 20) with 20%nat.
  reflexivity.
Qed.

Lemma wrapping_script_not_key_hash :
  PayToKeyID (firstn 20 wrapping_script) <> wrapping_script.
Proof.
  intros Heq. apply (f_equal size) in Heq.
  rewrite wrapping_script_size in Heq.
  unfold PayToKeyID in Heq. rewrite !size_app in Heq.
  assert (Hh : size (firstn 20 wrapping_script) <= 20).
  { unfold size. rewrite length_firstn. lia. }
  change (size [OP_DUP; OP_HASH160; x14]) with 3 in Heq.
  change (size [OP_EQUALVERIFY; OP_CHECKSIG]) with 2 in Heq.
  lia.
Qed.

(** *** Uncompressed public keys *)

Lemma firstn_length_app (a b : list byte) : firstn (length a) (a ++ b) = a.
Proof. induction a as [|x a IH]; simpl; [now destruct b|now rewrite IH]. Qed.

Lemma PayToPubKey_65 key :
  length key = 65%nat ->
  size (PayToPubKey key) = 67 /\ firstn 65 (skipn 1 (PayToPubKey key)) = key.
Proof.
  intros Hlen. unfold PayToPubKey. split.
  - rewrite !size_app. unfold size. rewrite Hlen. reflexivity.
  - cbn [app skipn]. rewrite <- Hlen. apply firstn_length_app.
Qed.

Lemma Compress_uncompressed key :
  length key = 65%nat ->
  nth 0 key x00 = x04 ->
  IsFullyValid key = true ->
  Compress (PayToPubKey key)
  = Some ((if Z.odd (byte_to_Z (nth 64 key x00)) then x05 else x04)
            :: firstn 32 (skipn 1 key)).
Proof.
  intros Hlen H04 Hvalid.
  destruct (PayToPubKey_65 key Hlen) as [Hsize Hkey].
  unfold Compress, IsToKeyID, IsToScriptID, IsToPubKey.
  rewrite Hsize, Hkey. cbn [Z.eqb Pos.eqb andb].
  rewrite bytes_eqb_refl, H04, Hvalid.
  change (Byte.eqb x04 x04) with true. cbn [andb]. cbv iota beta.
  rewrite H04. reflexivity.
Qed.

(** C7: the script that pays to a valid uncompressed key (65 bytes, first
    byte 0x04) is encoded with tag 4 when the last byte of the key is even
    and tag 5 when it is odd, followed by the 32 bytes of the
    X-coordinate; and when the point decompression recovers the key from
    that coordinate and parity, decoding rebuilds the script around the
    original 65-byte key, whatever the bound script held. *)
Theorem Compress_uncompressed_pubkey key :
  length key = 65%nat ->
  nth 0 key x00 = x04 ->
  IsFullyValid key = true ->
  let script := PayToPubKey key in
  let odd := Z.odd (byte_to_Z (nth 64 key x00)) in
  let X := firstn 32 (skipn 1 key) in
  Compress script = Some ((if odd then x05 else x04) :: X)
  /\ length X = 32%nat
  /\ Serialize script [] = (if odd then x05 else x04) :: X
  /\ (decompress_point X odd = Some key ->
      forall script0 rest,
        Unserialize (script0, Serialize script [] ++ rest) = Returned tt (script, rest)).
Proof.
  intros Hlen H04 Hvalid script odd X.
  pose proof (Compress_uncompressed key Hlen H04 Hvalid) as Hc.
  fold odd X script in Hc.
  assert (HX : length X = 32%nat).
  { subst X. rewrite length_firstn, length_skipn, Hlen. reflexivity. }
  assert (Hs : Serialize script [] = (if odd then x05 else x04) :: X).
  { unfold Serialize, write. now rewrite Hc. }
  repeat split; auto.
  intros Hpoint script0 rest.
  rewrite Unserialize_eq, Hs. cbn [app].
  assert (Hread : ReadVarInt_loop 32 0 ((if odd then x05 else x04) :: X ++ rest)
                  = (Some (if odd then 5 else 4), X ++ rest))
    by (destruct odd; reflexivity).
  rewrite Hread.
  assert (Hg : GetSpecialSize (if odd then 5 else 4) = 32) by (destruct odd; reflexivity).
  assert (Ht : ((if odd then 5 else 4) <? 6) = true) by (destruct odd; reflexivity).
  rewrite Ht, Hg.
  assert (HsX : size X = 32) by (unfold size; now rewrite HX).
  destruct (32 <=? size (X ++ rest)) eqn:Hle.
  2:{ apply Z.leb_gt in Hle. rewrite size_app, HsX in Hle.
      pose proof (size_nonneg rest). lia. }
  rewrite <- HsX at 1 2. rewrite firstn_size_app, skipn_size_app.
  unfold Decompress, bind, modify_obj, ret.
  destruct odd; cbn [Z.eqb Pos.eqb orb fst snd]; now rewrite Hpoint.
Qed.

End ScriptCodec.

(** ** CTxOutCompressor *)

Section TxOutCodec.
Context {env : Collaborators}.

(** C8: [Serialize] writes the variable-length integer of
    [CompressAmount nValue] first and the compressed script second;
    [Unserialize] reads in that order: it reads the integer, stores
    [DecompressAmount] of it in [nValue], and only then decodes the
    script from what follows, so the amount is already set when the script
    decoder throws; when the integer cannot be read the output is left
    untouched. *)
Theorem SerializationOp_order txout s :
  CTxOutCompressor.Serialize (txout, s)
  = Returned tt
      (txout,
       s ++ WriteVarInt 64 (CompressAmount (nValue txout))
         ++ CScriptCompressor.Serialize (scriptPubKey txout) [])
  /\ CTxOutCompressor.Unserialize (txout, s)
     = match ReadVarInt_loop 64 0 s with
       | (Some nVal, s1) =>
           match CScriptCompressor.Unserialize (scriptPubKey txout, s1) with
           | Returned _ (script, s2) =>
               Returned tt
                 ({| nValue := DecompressAmount nVal; scriptPubKey := script |}, s2)
           | Thrown (script, s2) =>
               Thrown
                 ({| nValue := DecompressAmount nVal; scriptPubKey := script |}, s2)
           end
       | (None, s1) => Thrown (txout, s1)
       end.
Proof.
  split.
  - unfold CTxOutCompressor.Serialize, SerializationOp, READWRITE_VARINT,
      READWRITE_cscript.
    cbn [negb]. unfold bind, get_obj, ret, on_member, write. cbn [fst snd].
    rewrite Serialize_app, <- app_assoc.
    destruct txout; reflexivity.
  - unfold CTxOutCompressor.Unserialize, SerializationOp, READWRITE_VARINT,
      READWRITE_cscript.
    cbn [negb]. unfold bind, modify_obj, on_member, ReadVarInt. cbn [fst snd].
    destruct (ReadVarInt_loop 64 0 s) as [[nVal|] s1]; [|reflexivity].
    cbn [fst snd scriptPubKey nValue].
    destruct (CScriptCompressor.Unserialize (scriptPubKey txout, s1)) as [[] [script s2]|[script s2]];
      reflexivity.
Qed.

End TxOutCodec.

(** ** The codec on concrete inputs *)

Section Examples.

Import CScriptCompressor.

Lemma oversized_stream_tag :
  ReadVarInt 32 ([x51], oversized_stream)
  = Returned 10007 ([x51], repeat x01 (Z.to_nat 10001) ++ [x99]).
Proof. vm_compute. reflexivity. Qed.

(** C2, at an input where the code departs from it: bound to a script that
    already holds one byte, the oversized branch leaves that byte followed
    by OP_FALSE OP_RETURN, three bytes and not the two-byte placeholder;
    the cursor does stand behind the 10001 declared bytes, at the marker,
    and none of them is in the script. *)
Theorem Unserialize_oversized_keeps_prior_script :
  10007 - nSpecialScripts > MAX_SCRIPT_SIZE_AFTER_GENESIS
  /\ Unserialize ([x51], oversized_stream)
     = Returned tt ([x51; OP_FALSE; OP_RETURN], [x99])
  /\ [x51; OP_FALSE; OP_RETURN] <> [OP_FALSE; OP_RETURN].
Proof.
  split; [vm_compute; reflexivity|].
  split; [vm_compute; reflexivity|].
  discriminate.
Qed.

Lemma Unserialize_oversized_appends_witness :
  Unserialize ([x51], oversized_stream)
  = Returned tt ([x51] ++ [OP_FALSE; OP_RETURN],
                 skipn (Z.to_nat (10007 - nSpecialScripts))
                   (repeat x01 (Z.to_nat 10001) ++ [x99])).
Proof.
  refine (proj1 (proj2 (Unserialize_oversized_appends [x51] oversized_stream 10007
                          (repeat x01 (Z.to_nat 10001) ++ [x99])
                          oversized_stream_tag _ _)) _).
  - vm_compute. discriminate.
  - vm_compute. reflexivity.
  - vm_compute. discriminate.
Defined.

Lemma Unserialize_cursor_witness :
  exists tag_bytes script',
    oversized_stream = tag_bytes ++ repeat x01 (Z.to_nat 10001) ++ [x99]
    /\ ReadVarInt_loop 32 0 tag_bytes = (Some 10007, [])
    /\ Unserialize ([x51], oversized_stream)
       = Returned tt (script', skipn (Z.to_nat 10001)
                                 (repeat x01 (Z.to_nat 10001) ++ [x99]))
    /\ skipn (Z.to_nat 10001) (repeat x01 (Z.to_nat 10001) ++ [x99]) = [x99].
Proof.
  destruct (Unserialize_cursor [x51] oversized_stream 10007
              (repeat x01 (Z.to_nat 10001) ++ [x99]) oversized_stream_tag)
    as (tag_bytes & Hs & _ & Hpre & H & _).
  destruct H as (script' & Hu & _).
  - vm_compute. discriminate.
  - exists tag_bytes, script'.
    split; [exact Hs|]. split; [exact Hpre|]. split; [exact Hu|].
    vm_compute. reflexivity.
Defined.

Lemma Unserialize_special_reads_GetSpecialSize_witness :
  Unserialize ([x51], x01 :: hash20 ++ [x99])
  = (Decompress 1 (firstn (Z.to_nat (GetSpecialSize 1)) (hash20 ++ [x99])) ;;; ret tt)
      ([x51], skipn (Z.to_nat (GetSpecialSize 1)) (hash20 ++ [x99])).
Proof.
  refine (proj1 (proj1 (proj2 Unserialize_special_reads_GetSpecialSize
                                 [x51] (x01 :: hash20 ++ [x99]) 1 (hash20 ++ [x99])
                                 _ _) _)).
  - vm_compute. reflexivity.
  - vm_compute. reflexivity.
  - vm_compute. discriminate.
Defined.

Lemma Serialize_raw_roundtrip_witness :
  Unserialize ([x51; x53; x54], Serialize [x51; x52] [] ++ [x99])
  = Returned tt ([x51; x52], [x99]).
Proof.
  refine (proj2 (proj2 (Serialize_raw_roundtrip [x51; x52] [] _ _)) _ _ _).
  - vm_compute. reflexivity.
  - vm_compute. reflexivity.
  - vm_compute. discriminate.
Defined.

Lemma Serialize_tag_disjoint_witness :
  (exists tag payload,
      Compress (PayToKeyID hash20) = Some (byte_of_Z tag :: payload)
      /\ 0 <= tag <= 5
      /\ Serialize (PayToKeyID hash20) [] = [] ++ byte_of_Z tag :: payload
      /\ forall (script0 : CScript) rest,
           ReadVarInt 32 (script0, Serialize (PayToKeyID hash20) [] ++ rest)
             = Returned tag (script0, payload ++ rest))
  \/ (Compress (PayToKeyID hash20) = None
      /\ Serialize (PayToKeyID hash20) []
         = [] ++ WriteVarInt 32 (size (PayToKeyID hash20) + 6) ++ PayToKeyID hash20
      /\ 6 <= size (PayToKeyID hash20) + 6
      /\ forall (script0 : CScript) rest,
           ReadVarInt 32 (script0, Serialize (PayToKeyID hash20) [] ++ rest)
             = Returned (size (PayToKeyID hash20) + 6)
                 (script0, PayToKeyID hash20 ++ rest)).
Proof.
  apply (Serialize_tag_disjoint (PayToKeyID hash20) []).
  vm_compute. reflexivity.
Defined.

Lemma Compress_uncompressed_pubkey_witness :
  Compress (PayToPubKey Secp256k1.G)
  = Some (x04 :: firstn 32 (skipn 1 Secp256k1.G))
  /\ Unserialize ([x51], Serialize (PayToPubKey Secp256k1.G) [] ++ [x99])
     = Returned tt (PayToPubKey Secp256k1.G, [x99]).
Proof.
  destruct (Compress_uncompressed_pubkey Secp256k1.G) as (Hc & _ & _ & Hd).
  - vm_compute. reflexivity.
  - vm_compute. reflexivity.
  - vm_compute. reflexivity.
  - split.
    + exact Hc.
    + apply Hd. vm_compute. reflexivity.
Defined.

(** The key with the odd Y-coordinate takes tag 5 and comes back as well. *)
Example uncompressed_pubkey_odd :
  Compress (PayToPubKey Secp256k1.negG)
  = Some (x05 :: firstn 32 (skipn 1 Secp256k1.negG))
  /\ Unserialize ([], Serialize (PayToPubKey Secp256k1.negG) [])
     = Returned tt (PayToPubKey Secp256k1.negG, []).
Proof. split; vm_compute; reflexivity. Qed.

(** The output of 5_000_000_000 units paid to a key hash: the amount is
    written as 50, the script as tag 0 and the 20 bytes of the hash, and
    the 22 bytes decode to the output. *)
Example txout_end_to_end :
  let txout := {| nValue := 5000000000; scriptPubKey := PayToKeyID hash20 |} in
  CTxOutCompressor.Serialize (txout, [])
    = Returned tt (txout, byte_of_Z 50 :: x00 :: hash20)
  /\ CTxOutCompressor.Unserialize
       ({| nValue := 0; scriptPubKey := [] |}, byte_of_Z 50 :: x00 :: hash20)
     = Returned tt (txout, []).
Proof. split; vm_compute; reflexivity. Qed.

(** *** A script whose length plus six does not fit the tag *)

(** C5 as stated fails for a script of 2^32 - 6 bytes, within a limit of
    2^32 - 1: it matches no special shape, the tag written for it is 0 and
    not its length plus 6, and decoding the encoding gives a 25-byte
    pay-to-key-hash script, not the script. *)
Lemma Serialize_raw_tag_wraps :
  Compress (env := config_unlimited) wrapping_script = None
  /\ size wrapping_script <= MAX_SCRIPT_SIZE_AFTER_GENESIS (Collaborators := config_unlimited)
  /\ size wrapping_script + 6 = 4294967296
  /\ Serialize (env := config_unlimited) wrapping_script []
     = WriteVarInt 32 0 ++ wrapping_script
  /\ ReadVarInt_loop 32 0 (Serialize (env := config_unlimited) wrapping_script [])
     = (Some 0, wrapping_script)
  /\ Unserialize (env := config_unlimited)
       ([], Serialize (env := config_unlimited) wrapping_script [])
     = Returned tt (PayToKeyID (env := config_unlimited) (firstn 20 wrapping_script),
                    skipn 20 wrapping_script)
  /\ PayToKeyID (env := config_unlimited) (firstn 20 wrapping_script) <> wrapping_script.
Proof.
  pose proof (wrapping_script_Serialize (env := config_unlimited)) as Hs.
  split; [exact (wrapping_script_raw (env := config_unlimited))|].
  split; [rewrite wrapping_script_size; cbn [MAX_SCRIPT_SIZE_AFTER_GENESIS config_unlimited]; lia|].
  split; [rewrite wrapping_script_size; reflexivity|].
  split; [exact Hs|].
  split; [rewrite Hs; apply ReadVarInt_loop_tag; lia|].
  split; [exact (wrapping_script_Unserialize (env := config_unlimited) [])|].
  exact (wrapping_script_not_key_hash (env := config_unlimited)).
Qed.

(** C10 as stated fails for the same script: its encoding is a raw one,
    the tag a decoder reads from it is 0, a special tag, and the decoder
    takes the special branch. *)
Lemma Serialize_raw_tag_in_special_range :
  Compress (env := config) wrapping_script = None
  /\ ReadVarInt 32 ([], Serialize (env := config) wrapping_script [])
     = Returned 0 (@nil byte, wrapping_script)
  /\ 0 < nSpecialScripts
  /\ Unserialize (env := config) ([], Serialize (env := config) wrapping_script [])
     = Returned tt (PayToKeyID (env := config) (firstn 20 wrapping_script),
                    skipn 20 wrapping_script).
Proof.
  pose proof (wrapping_script_Serialize (env := config)) as Hs.
  split; [exact (wrapping_script_raw (env := config))|].
  split.
  { unfold ReadVarInt. cbn [fst snd].
    rewrite Hs, ReadVarInt_loop_tag by lia.
    reflexivity. }
  split; [reflexivity|].
  exact (wrapping_script_Unserialize (env := config) []).
Qed.

End Examples.

(** * Further properties of the codec *)

(** ** Reading the tag *)

(** A stream in which every byte has its high bit set, the empty stream
    among them, ends inside the integer: the reader throws, having
    consumed every byte. *)
Lemma ReadVarInt_loop_unterminated w : forall s acc,
  Forall (fun chData => Z.land (byte_to_Z chData) 128 <> 0) s ->
  ReadVarInt_loop w acc s = (None, []).
Proof.
  induction s as [|ch s IH]; intros acc Hs; [reflexivity|].
  inversion Hs as [|? ? Hch Hrest]; subst.
  cbn [ReadVarInt_loop].
  apply Z.eqb_neq in Hch. rewrite Hch. now apply IH.
Qed.

Lemma ReadVarInt_loop_Write64 n rest :
  0 <= n < 2 ^ 64 ->
  ReadVarInt_loop 64 0 (WriteVarInt 64 n ++ rest) = (Some n, rest).
Proof.
  intros Hn. unfold WriteVarInt. rewrite wrap_small by assumption.
  apply ReadVarInt_loop_Write; [assumption|vm_compute; congruence].
Qed.

Section ScriptDecoder.
Context {env : Collaborators}.

Import CScriptCompressor.

(** X1: a stream that ends before the tag is complete (no byte without the
    high bit, in particular the empty stream) makes [Unserialize] throw at
    its first read, with the bound script untouched and the stream
    exhausted. *)
Theorem Unserialize_unterminated_tag script0 s :
  Forall (fun chData => Z.land (byte_to_Z chData) 128 <> 0) s ->
  Unserialize (script0, s) = Thrown (script0, []).
Proof.
  intros Hs. rewrite Unserialize_eq.
  now rewrite ReadVarInt_loop_unterminated.
Qed.

(** X2: in the raw branch within the limit, the decoded script is the
    declared number of bytes behind the tag, verbatim: nothing of what the
    bound script held before survives, and the cursor stands behind the
    payload. *)
Theorem Unserialize_raw_verbatim script0 s tag s1 :
  ReadVarInt 32 (script0, s) = Returned tag (script0, s1) ->
  nSpecialScripts <= tag ->
  tag - nSpecialScripts <= MAX_SCRIPT_SIZE_AFTER_GENESIS ->
  tag - nSpecialScripts <= size s1 ->
  Unserialize (script0, s)
    = Returned tt (firstn (Z.to_nat (tag - nSpecialScripts)) s1,
                   skipn (Z.to_nat (tag - nSpecialScripts)) s1)
  /\ size (firstn (Z.to_nat (tag - nSpecialScripts)) s1) = tag - nSpecialScripts.
Proof.
  intros Hr Ht Hmax Hp. unfold nSpecialScripts in *.
  apply ReadVarInt_inv in Hr as [Hr _]. cbn [snd] in Hr.
  assert (Hge : (tag <? 6) = false) by now apply Z.ltb_ge.
  destruct (tag_of_raw _ _ _ Hr Hge) as [Hw Hn].
  rewrite Unserialize_eq, Hr, Hge. cbv zeta. rewrite Hw.
  destruct (tag - 6 >? MAX_SCRIPT_SIZE_AFTER_GENESIS) eqn:Hgt;
    [apply Z.gtb_lt in Hgt; lia|].
  apply Z.leb_le in Hp. rewrite Hp. apply Z.leb_le in Hp.
  split; [reflexivity|].
  now apply size_firstn_skipn.
Qed.

Lemma size_resize n v : 0 <= n -> size (resize n v) = n.
Proof.
  intros Hn. unfold size, resize.
  rewrite length_app, length_firstn, repeat_length. lia.
Qed.

(** X3: in the raw branch within the limit, a stream that holds fewer bytes
    than declared makes the read throw after the script was resized: the
    bound script is left with the declared length, a prefix of its prior
    contents padded with zero bytes, and the cursor stays behind the
    tag. *)
Theorem Unserialize_raw_truncated script0 s tag s1 :
  ReadVarInt 32 (script0, s) = Returned tag (script0, s1) ->
  nSpecialScripts <= tag ->
  tag - nSpecialScripts <= MAX_SCRIPT_SIZE_AFTER_GENESIS ->
  size s1 < tag - nSpecialScripts ->
  Unserialize (script0, s)
    = Thrown (firstn (Z.to_nat (tag - nSpecialScripts)) script0
                ++ repeat x00 (Z.to_nat (tag - nSpecialScripts) - length script0),
              s1)
  /\ size (fst (final_state (Unserialize (script0, s)))) = tag - nSpecialScripts.
Proof.
  intros Hr Ht Hmax Hp. unfold nSpecialScripts in *.
  apply ReadVarInt_inv in Hr as [Hr _]. cbn [snd] in Hr.
  assert (Hge : (tag <? 6) = false) by now apply Z.ltb_ge.
  destruct (tag_of_raw _ _ _ Hr Hge) as [Hw Hn].
  rewrite Unserialize_eq, Hr, Hge. cbv zeta. rewrite Hw.
  destruct (tag - 6 >? MAX_SCRIPT_SIZE_AFTER_GENESIS) eqn:Hgt;
    [apply Z.gtb_lt in Hgt; lia|].
  destruct (tag - 6 <=? size s1) eqn:Hle; [apply Z.leb_le in Hle; lia|].
  split; [reflexivity|].
  cbn [final_state fst]. now apply size_resize.
Qed.

(** X4: whatever a tag of 6 or more declares, and whether the call returns
    or throws, the script it leaves is never longer than the larger of
    the limit and the prior script plus the two placeholder bytes. *)
Theorem Unserialize_raw_size_bound script0 s tag s1 :
  ReadVarInt 32 (script0, s) = Returned tag (script0, s1) ->
  nSpecialScripts <= tag ->
  size (fst (final_state (Unserialize (script0, s))))
  <= Z.max MAX_SCRIPT_SIZE_AFTER_GENESIS (size script0 + 2).
Proof.
  intros Hr Ht. unfold nSpecialScripts in *.
  apply ReadVarInt_inv in Hr as [Hr _]. cbn [snd] in Hr.
  assert (Hge : (tag <? 6) = false) by now apply Z.ltb_ge.
  destruct (tag_of_raw _ _ _ Hr Hge) as [Hw Hn].
  rewrite Unserialize_eq, Hr, Hge. cbv zeta. rewrite Hw.
  destruct (tag - 6 >? MAX_SCRIPT_SIZE_AFTER_GENESIS) eqn:Hgt.
  - assert (Hsz : size (script0 ++ [OP_FALSE; OP_RETURN]) = size script0 + 2)
      by (rewrite size_app; reflexivity).
    destruct (tag - 6 <=? size s1); cbn [final_state fst]; rewrite Hsz; lia.
  - assert (Hmax : tag - 6 <= MAX_SCRIPT_SIZE_AFTER_GENESIS).
    { destruct (Z.gtb_spec (tag - 6) MAX_SCRIPT_SIZE_AFTER_GENESIS); [discriminate|lia]. }
    destruct (tag - 6 <=? size s1) eqn:Hle; cbn [final_state fst].
    + apply Z.leb_le in Hle.
      destruct (size_firstn_skipn (tag - 6) s1) as [Hf _]; [lia|].
      rewrite Hf. lia.
    + rewrite size_resize by lia. lia.
Qed.

End ScriptDecoder.

(** ** Encoding and decoding together *)

Section ScriptRoundTrip.
Context {env : Collaborators}.

Import CScriptCompressor.

Lemma size_length (v : list byte) n : size v = Z.of_nat n -> length v = n.
Proof. unfold size. lia. Qed.

Lemma IsToKeyID_Some script hash :
  IsToKeyID script = Some hash ->
  script = PayToKeyID hash /\ length hash = 20%nat.
Proof.
  unfold IsToKeyID. cbv zeta.
  remember (firstn 20 (skipn 3 script)) as h eqn:Hh.
  destruct ((size script =? 25) && _) eqn:Hc; [|discriminate].
  intros H. injection H as <-.
  apply andb_true_iff in Hc as [Hsz Heq].
  apply Z.eqb_eq in Hsz. apply bytes_eqb_eq in Heq.
  split; [exact Heq|].
  apply (size_length _ 25) in Hsz.
  rewrite Hh, length_firstn, length_skipn, Hsz. reflexivity.
Qed.

Lemma IsToScriptID_Some script hash :
  IsToScriptID script = Some hash ->
  script = PayToScriptID hash /\ length hash = 20%nat.
Proof.
  unfold IsToScriptID. cbv zeta.
  remember (firstn 20 (skipn 2 script)) as h eqn:Hh.
  destruct ((size script =? 23) && _) eqn:Hc; [|discriminate].
  intros H. injection H as <-.
  apply andb_true_iff in Hc as [Hsz Heq].
  apply Z.eqb_eq in Hsz. apply bytes_eqb_eq in Heq.
  split; [exact Heq|].
  apply (size_length _ 23) in Hsz.
  rewrite Hh, length_firstn, length_skipn, Hsz. reflexivity.
Qed.

Lemma IsToPubKey_Some script pubkey :
  IsToPubKey script = Some pubkey ->
  script = PayToPubKey pubkey
  /\ IsFullyValid pubkey = true
  /\ ((length pubkey = 33%nat
       /\ (nth 0 pubkey x00 = x02 \/ nth 0 pubkey x00 = x03))
      \/ (length pubkey = 65%nat /\ nth 0 pubkey x00 = x04)).
Proof.
  unfold IsToPubKey. cbv zeta.
  destruct (size script =? 35) eqn:H35.
  - apply Z.eqb_eq in H35. apply (size_length _ 35) in H35.
    remember (firstn 33 (skipn 1 script)) as k eqn:Hk.
    destruct (_ && _) eqn:Hc; [|discriminate].
    intros H. injection H as <-.
    apply andb_true_iff in Hc as [Hc Hv].
    apply andb_true_iff in Hc as [Heq Hp].
    apply bytes_eqb_eq in Heq.
    split; [exact Heq|]. split; [exact Hv|]. left. split.
    + rewrite Hk, length_firstn, length_skipn, H35. reflexivity.
    + apply orb_true_iff in Hp as [Hp|Hp]; apply Byte.byte_dec_bl in Hp; auto.
  - destruct (size script =? 67) eqn:H67; [|discriminate].
    apply Z.eqb_eq in H67. apply (size_length _ 67) in H67.
    remember (firstn 65 (skipn 1 script)) as k eqn:Hk.
    destruct (_ && _) eqn:Hc; [|discriminate].
    intros H. injection H as <-.
    apply andb_true_iff in Hc as [Hc Hv].
    apply andb_true_iff in Hc as [Heq Hp].
    apply bytes_eqb_eq in Heq.
    split; [exact Heq|]. split; [exact Hv|]. right. split.
    + rewrite Hk, length_firstn, length_skipn, H67. reflexivity.
    + now apply Byte.byte_dec_bl in Hp.
Qed.

(** The special forms, shape by shape. *)
Lemma Compress_Some script compr :
  Compress script = Some compr ->
  (exists hash, script = PayToKeyID hash /\ length hash = 20%nat /\ compr = x00 :: hash)
  \/ (exists hash, script = PayToScriptID hash /\ length hash = 20%nat /\ compr = x01 :: hash)
  \/ (exists pubkey,
        script = PayToPubKey pubkey /\ length pubkey = 33%nat
        /\ (nth 0 pubkey x00 = x02 \/ nth 0 pubkey x00 = x03)
        /\ compr = pubkey)
  \/ (exists pubkey,
        IsToPubKey script = Some pubkey
        /\ script = PayToPubKey pubkey /\ length pubkey = 65%nat
        /\ nth 0 pubkey x00 = x04
        /\ compr = (if Z.odd (byte_to_Z (nth 64 pubkey x00)) then x05 else x04)
                     :: firstn 32 (skipn 1 pubkey)).
Proof.
  unfold Compress.
  destruct (IsToKeyID script) as [keyID|] eqn:Hk.
  { intros H. injection H as <-. left.
    destruct (IsToKeyID_Some _ _ Hk). eauto. }
  destruct (IsToScriptID script) as [scriptID|] eqn:Hs.
  { intros H. injection H as <-. right. left.
    destruct (IsToScriptID_Some _ _ Hs). eauto. }
  destruct (IsToPubKey script) as [pubkey|] eqn:Hp; [|discriminate].
  destruct (IsToPubKey_Some _ _ Hp) as (Hscript & _ & [[Hlen Hpre]|[Hlen Hpre]]).
  - intros H. right. right. left. exists pubkey.
    assert (Hc : compr = nth 0 pubkey x00 :: firstn 32 (skipn 1 pubkey)).
    { destruct Hpre as [Hpre|Hpre]; rewrite Hpre in H |- *; cbn in H; now injection H as <-. }
    repeat split; auto.
    rewrite Hc. destruct pubkey as [|b body]; [discriminate|].
    cbn [nth skipn]. f_equal.
    apply firstn_all2. cbn [length] in Hlen. lia.
  - intros H. right. right. right. exists pubkey.
    rewrite Hpre in H. cbn in H. injection H as <-.
    repeat split; auto.
Qed.

(** Decoding behind a special form: the tag is read back, the payload is
    read whole, and [Decompress] gets both. *)
Lemma Unserialize_special_encoding script tag payload :
  Compress script = Some (byte_of_Z tag :: payload) ->
  0 <= tag <= 5 ->
  size payload = GetSpecialSize tag ->
  forall script0 rest,
    Unserialize (script0, Serialize script [] ++ rest)
    = (Decompress tag payload ;;; ret tt) (script0, rest).
Proof.
  intros Hc Ht Hp script0 rest.
  assert (Hs : Serialize script [] = byte_of_Z tag :: payload)
    by (unfold Serialize, write; now rewrite Hc).
  rewrite Unserialize_eq, Hs. cbn [app].
  rewrite ReadVarInt_loop_tag by assumption.
  assert (Hlt : (tag <? 6) = true) by (apply Z.ltb_lt; lia).
  rewrite Hlt, <- Hp.
  assert (Hle : (size payload <=? size (payload ++ rest)) = true).
  { apply Z.leb_le. rewrite size_app. pose proof (size_nonneg rest). lia. }
  now rewrite Hle, firstn_size_app, skipn_size_app.
Qed.

(** X6: a special form is a tag byte between 0 and 5 followed by exactly
    [GetSpecialSize] of that tag bytes, 21 or 33 bytes in all, as the class
    comment says; hence decoding the encoding of a script with a special
    form reads the tag and the whole payload, passes them to [Decompress],
    and leaves the cursor behind the encoding. *)
Theorem Compress_size script compr :
  Compress script = Some compr ->
  exists tag payload,
    compr = byte_of_Z tag :: payload
    /\ 0 <= tag <= 5
    /\ size payload = GetSpecialSize tag
    /\ (size compr = 21 \/ size compr = 33)
    /\ forall script0 rest,
         Unserialize (script0, Serialize script [] ++ rest)
         = (Decompress tag payload ;;; ret tt) (script0, rest).
Proof.
  intros Hc.
  assert (Hdec : forall tag payload,
            compr = byte_of_Z tag :: payload -> 0 <= tag <= 5 ->
            size payload = GetSpecialSize tag ->
            forall script0 rest,
              Unserialize (script0, Serialize script [] ++ rest)
              = (Decompress tag payload ;;; ret tt) (script0, rest)).
  { intros tag payload Heq Ht Hp. rewrite Heq in Hc.
    now apply Unserialize_special_encoding. }
  assert (Hfin : forall tag payload,
            compr = byte_of_Z tag :: payload -> 0 <= tag <= 5 ->
            size payload = GetSpecialSize tag ->
            size payload = 20 \/ size payload = 32 ->
            exists tag payload,
              compr = byte_of_Z tag :: payload
              /\ 0 <= tag <= 5
              /\ size payload = GetSpecialSize tag
              /\ (size compr = 21 \/ size compr = 33)
              /\ forall script0 rest,
                   Unserialize (script0, Serialize script [] ++ rest)
                   = (Decompress tag payload ;;; ret tt) (script0, rest)).
  { intros tag payload Hcompr Ht Hp Hz. exists tag, payload.
    repeat split; try assumption; try lia.
    - rewrite Hcompr.
      change (byte_of_Z tag :: payload) with ([byte_of_Z tag] ++ payload).
      rewrite size_app. change (size [byte_of_Z tag]) with 1. lia.
    - now apply Hdec. }
  assert (Hsize : forall n (v : list byte), length v = n -> size v = Z.of_nat n)
    by (intros n v <-; reflexivity).
  destruct (Compress_Some _ _ Hc)
    as [(h & _ & Hl & Hcompr)|[(h & _ & Hl & Hcompr)
       |[(pubkey & _ & Hl & Hpre & Hcompr)|(pubkey & _ & _ & Hl & _ & Hcompr)]]].
  - pose proof (Hsize _ _ Hl) as Hz.
    apply (Hfin 0 h); [exact Hcompr|lia|rewrite Hz; reflexivity|left; exact Hz].
  - pose proof (Hsize _ _ Hl) as Hz.
    apply (Hfin 1 h); [exact Hcompr|lia|rewrite Hz; reflexivity|left; exact Hz].
  - destruct pubkey as [|b body]; [discriminate|].
    cbn [nth] in Hpre. cbn [length] in Hl.
    assert (Hz : size body = 32) by (unfold size; lia).
    destruct Hpre as [-> | ->].
    + apply (Hfin 2 body); [exact Hcompr|lia|rewrite Hz; reflexivity|right; exact Hz].
    + apply (Hfin 3 body); [exact Hcompr|lia|rewrite Hz; reflexivity|right; exact Hz].
  - assert (Hz : size (firstn 32 (skipn 1 pubkey)) = 32).
    { unfold size. rewrite length_firstn, length_skipn, Hl. reflexivity. }
    destruct (Z.odd (byte_to_Z (nth 64 pubkey x00))).
    + apply (Hfin 5 (firstn 32 (skipn 1 pubkey)));
        [exact Hcompr|lia|rewrite Hz; reflexivity|right; exact Hz].
    + apply (Hfin 4 (firstn 32 (skipn 1 pubkey)));
        [exact Hcompr|lia|rewrite Hz; reflexivity|right; exact Hz].
Qed.

(** Decoding what [Serialize] wrote, shape by shape. *)
Lemma Unserialize_Serialize_script script :
  size script + 6 < 2 ^ 32 ->
  (Compress script = None -> size script <= MAX_SCRIPT_SIZE_AFTER_GENESIS) ->
  (forall pubkey,
     IsToPubKey script = Some pubkey -> nth 0 pubkey x00 = x04 ->
     decompress_point (firstn 32 (skipn 1 pubkey))
       (Z.odd (byte_to_Z (nth 64 pubkey x00))) = Some pubkey) ->
  forall script0 rest,
    Unserialize (script0, Serialize script [] ++ rest) = Returned tt (script, rest).
Proof.
  intros Hlen Hraw Hpoint script0 rest.
  destruct (Compress script) as [compr|] eqn:Hc.
  - destruct (Compress_Some _ _ Hc)
      as [(h & Hs & Hl & ->)|[(h & Hs & Hl & ->)
         |[(pubkey & Hs & Hl & Hpre & ->)|(pubkey & Hp & Hs & Hl & H04 & ->)]]].
    + rewrite (Unserialize_special_encoding script 0 h); auto; try lia.
      * now rewrite Hs.
      * unfold size. rewrite Hl. reflexivity.
    + rewrite (Unserialize_special_encoding script 1 h); auto; try lia.
      * now rewrite Hs.
      * unfold size. rewrite Hl. reflexivity.
    + destruct pubkey as [|b body]; [discriminate|].
      cbn [nth] in Hpre. cbn [length] in Hl.
      assert (Hz : size body = 32) by (unfold size; lia).
      destruct Hpre as [-> | ->].
      * rewrite (Unserialize_special_encoding script 2 body); auto; try lia.
        now rewrite Hs.
      * rewrite (Unserialize_special_encoding script 3 body); auto; try lia.
        now rewrite Hs.
    + specialize (Hpoint pubkey Hp H04).
      assert (Hz : size (firstn 32 (skipn 1 pubkey)) = 32).
      { unfold size. rewrite length_firstn, length_skipn, Hl. reflexivity. }
      destruct (Z.odd (byte_to_Z (nth 64 pubkey x00))).
      * rewrite (Unserialize_special_encoding script 5 (firstn 32 (skipn 1 pubkey)));
          auto; try lia.
        unfold Decompress, bind, modify_obj, ret.
        cbn [Z.eqb Pos.eqb orb fst snd]. rewrite Hpoint. now rewrite Hs.
      * rewrite (Unserialize_special_encoding script 4 (firstn 32 (skipn 1 pubkey)));
          auto; try lia.
        unfold Decompress, bind, modify_obj, ret.
        cbn [Z.eqb Pos.eqb orb fst snd]. rewrite Hpoint. now rewrite Hs.
  - specialize (Hraw eq_refl).
    rewrite Unserialize_eq, ReadVarInt_loop_raw by assumption.
    pose proof (size_nonneg script).
    destruct (size script + 6 <? 6) eqn:Ht; [apply Z.ltb_lt in Ht; lia|].
    cbv zeta.
    replace (size script + 6 - 6) with (size script) by lia.
    unfold wrap32. rewrite wrap_small by lia.
    destruct (size script >? MAX_SCRIPT_SIZE_AFTER_GENESIS) eqn:Hgt;
      [apply Z.gtb_lt in Hgt; lia|].
    destruct (size script <=? size (script ++ rest)) eqn:Hle.
    + now rewrite firstn_size_app, skipn_size_app.
    + apply Z.leb_gt in Hle. rewrite size_app in Hle.
      pose proof (size_nonneg rest). lia.
Qed.

(** X7: decoding what [Serialize] wrote gives the script back and leaves
    the cursor behind the encoding, whatever the bound script held, for
    every script whose length plus six fits the tag, provided a script
    without special form is within the length limit and, for a script
    paying to an uncompressed key, the point decompression recovers that
    key from its X-coordinate and parity. *)
Theorem Serialize_Unserialize_roundtrip script :
  size script + 6 < 2 ^ 32 ->
  (Compress script = None -> size script <= MAX_SCRIPT_SIZE_AFTER_GENESIS) ->
  (forall pubkey,
     IsToPubKey script = Some pubkey -> nth 0 pubkey x00 = x04 ->
     decompress_point (firstn 32 (skipn 1 pubkey))
       (Z.odd (byte_to_Z (nth 64 pubkey x00))) = Some pubkey) ->
  forall script0 rest,
    Unserialize (script0, Serialize script [] ++ rest) = Returned tt (script, rest).
Proof. exact (Unserialize_Serialize_script script). Qed.

(** X9: the raw encodings are prefix-free: when the encodings of two
    scripts without special form, each of fewer than 2^32 - 6 bytes, are
    followed by anything and the resulting streams are equal, the scripts
    are equal and so is what follows them. *)
Theorem Serialize_raw_prefix_free script1 script2 rest1 rest2 :
  Compress script1 = None -> Compress script2 = None ->
  size script1 + 6 < 2 ^ 32 -> size script2 + 6 < 2 ^ 32 ->
  Serialize script1 [] ++ rest1 = Serialize script2 [] ++ rest2 ->
  script1 = script2 /\ rest1 = rest2.
Proof.
  intros Hc1 Hc2 Hl1 Hl2 Heq.
  pose proof (ReadVarInt_loop_raw script1 rest1 Hc1 Hl1) as H1.
  pose proof (ReadVarInt_loop_raw script2 rest2 Hc2 Hl2) as H2.
  rewrite Heq, H2 in H1. injection H1 as Hsz Happ.
  assert (Hsz' : size script1 = size script2) by lia.
  split.
  - apply (f_equal (firstn (Z.to_nat (size script2)))) in Happ.
    rewrite firstn_size_app in Happ.
    rewrite <- Hsz', firstn_size_app in Happ. now symmetry.
  - apply (f_equal (skipn (Z.to_nat (size script2)))) in Happ.
    rewrite skipn_size_app in Happ.
    rewrite <- Hsz', skipn_size_app in Happ. now symmetry.
Qed.

End ScriptRoundTrip.

(** ** Transaction outputs *)

Section TxOutRoundTrip.
Context {env : Collaborators}.

Lemma CompressAmount_range a : 0 <= CompressAmount a < 2 ^ 64.
Proof.
  unfold CompressAmount, add64.
  destruct (wrap64 a =? 0); [lia|].
  destruct (strip_zeros 9 (wrap64 a) 0) as [n e].
  destruct (e <? 9); unfold wrap64, wrap; apply Z.mod_pos_bound; lia.
Qed.

(** What [Serialize] appends for an output. *)
Lemma CTxOut_Serialize_eq txout s :
  CTxOutCompressor.Serialize (txout, s)
  = Returned tt
      (txout,
       s ++ WriteVarInt 64 (CompressAmount (nValue txout))
         ++ CScriptCompressor.Serialize (scriptPubKey txout) []).
Proof.
  unfold CTxOutCompressor.Serialize, SerializationOp, READWRITE_VARINT,
    READWRITE_cscript.
  cbn [negb]. unfold bind, get_obj, ret, on_member, write. cbn [fst snd].
  rewrite Serialize_app, <- app_assoc.
  destruct txout; reflexivity.
Qed.

(** [Unserialize] of an output, step by step. *)
Lemma CTxOut_Unserialize_eq txout s :
  CTxOutCompressor.Unserialize (txout, s)
  = match ReadVarInt_loop 64 0 s with
    | (Some nVal, s1) =>
        match CScriptCompressor.Unserialize (scriptPubKey txout, s1) with
        | Returned _ (script, s2) =>
            Returned tt
              ({| nValue := DecompressAmount nVal; scriptPubKey := script |}, s2)
        | Thrown (script, s2) =>
            Thrown
              ({| nValue := DecompressAmount nVal; scriptPubKey := script |}, s2)
        end
    | (None, s1) => Thrown (txout, s1)
    end.
Proof.
  unfold CTxOutCompressor.Unserialize, SerializationOp, READWRITE_VARINT,
    READWRITE_cscript.
  cbn [negb]. unfold bind, modify_obj, on_member, ReadVarInt. cbn [fst snd].
  destruct (ReadVarInt_loop 64 0 s) as [[nVal|] s1]; [|reflexivity].
  cbn [fst snd scriptPubKey nValue].
  destruct (CScriptCompressor.Unserialize (scriptPubKey txout, s1))
    as [[] [script s2]|[script s2]]; reflexivity.
Qed.

(** X8: an output written by [Serialize] is read back by [Unserialize] as
    the same output, into whatever output object, with the cursor left
    behind its bytes, when the amount is a non-negative [Amount] whose
    compressed form fits 64 bits and the script meets the conditions of
    the script round trip. *)
Theorem CTxOut_Serialize_Unserialize_roundtrip txout :
  0 <= nValue txout < 2 ^ 63 ->
  CompressAmount_exact (nValue txout) < 2 ^ 64 ->
  size (scriptPubKey txout) + 6 < 2 ^ 32 ->
  (CScriptCompressor.Compress (scriptPubKey txout) = None ->
   size (scriptPubKey txout) <= MAX_SCRIPT_SIZE_AFTER_GENESIS) ->
  (forall pubkey,
     CScriptCompressor.IsToPubKey (scriptPubKey txout) = Some pubkey ->
     nth 0 pubkey x00 = x04 ->
     decompress_point (firstn 32 (skipn 1 pubkey))
       (Z.odd (byte_to_Z (nth 64 pubkey x00))) = Some pubkey) ->
  forall txout0 rest,
    CTxOutCompressor.Unserialize
      (txout0, snd (final_state (CTxOutCompressor.Serialize (txout, []))) ++ rest)
    = Returned tt (txout, rest).
Proof.
  intros Hv Hfit Hlen Hraw Hpoint txout0 rest.
  rewrite CTxOut_Serialize_eq. cbn [final_state snd app].
  rewrite CTxOut_Unserialize_eq, <- app_assoc.
  rewrite ReadVarInt_loop_Write64 by apply CompressAmount_range.
  rewrite (Unserialize_Serialize_script (scriptPubKey txout) Hlen Hraw Hpoint).
  rewrite amount_roundtrip by assumption.
  destruct txout; reflexivity.
Qed.

(** X10: a stream that holds a whole amount and then ends before the
    script's tag is complete makes [Unserialize] throw after the amount
    was assigned: the output is left with the new amount and its prior
    script. *)
Theorem CTxOut_Unserialize_amount_only txout nVal s :
  0 <= nVal < 2 ^ 64 ->
  Forall (fun chData => Z.land (byte_to_Z chData) 128 <> 0) s ->
  CTxOutCompressor.Unserialize (txout, WriteVarInt 64 nVal ++ s)
  = Thrown ({| nValue := DecompressAmount nVal;
               scriptPubKey := scriptPubKey txout |}, []).
Proof.
  intros Hn Hs.
  rewrite CTxOut_Unserialize_eq, ReadVarInt_loop_Write64 by assumption.
  rewrite Unserialize_eq, ReadVarInt_loop_unterminated by assumption.
  reflexivity.
Qed.

End TxOutRoundTrip.

(** ** Sizes and framing *)

Section Framing.
Context {env : Collaborators}.

Import CScriptCompressor.

Lemma WriteVarInt_loop_size_pos fuel : forall n len,
  1 <= size (WriteVarInt_loop fuel n len).
Proof.
  induction fuel as [|fuel IH]; intros n len; cbn [WriteVarInt_loop].
  - destruct (n <=? 127); cbv; discriminate.
  - destruct (n <=? 127); [cbv; discriminate|].
    rewrite size_app. specialize (IH (Z.shiftr n 7 - 1) (len + 1)).
    change (size [_]) with 1. lia.
Qed.

Lemma WriteVarInt_loop_size_step fuel n len :
  127 < n ->
  size (WriteVarInt_loop (S fuel) n len)
  = size (WriteVarInt_loop fuel (Z.shiftr n 7 - 1) (len + 1)) + 1.
Proof.
  intros Hn. cbn [WriteVarInt_loop].
  destruct (n <=? 127) eqn:Hle; [apply Z.leb_le in Hle; lia|].
  rewrite size_app. reflexivity.
Qed.

(** An [unsigned int] above 16511 takes at least three bytes. *)
Lemma WriteVarInt32_size_large n :
  16511 < n < 2 ^ 32 -> 3 <= size (WriteVarInt 32 n).
Proof.
  intros Hn. unfold WriteVarInt. rewrite wrap_small by lia.
  change (Z.to_nat ((32 + 6) / 7)) with 5%nat.
  assert (Hq : 127 < Z.shiftr n 7 - 1).
  { rewrite Z.shiftr_div_pow2 by lia. change (2 ^ 7) with 128.
    assert (129 <= n / 128) by (apply Z.div_le_lower_bound; lia). lia. }
  rewrite WriteVarInt_loop_size_step by lia.
  rewrite WriteVarInt_loop_size_step by lia.
  pose proof (WriteVarInt_loop_size_pos 3 (Z.shiftr (Z.shiftr n 7 - 1) 7 - 1) (0 + 1 + 1)).
  lia.
Qed.

(** X5: the sizes that the class comment gives for a script without
    special form: its encoding is one byte longer than the script up to
    121 bytes and two bytes longer up to 16505 bytes; above that it is at
    least three bytes longer. *)
Theorem Serialize_raw_encoded_size script :
  Compress script = None ->
  size script + 6 < 2 ^ 32 ->
  (size script <= 121 -> size (Serialize script []) = 1 + size script)
  /\ (121 < size script <= 16505 -> size (Serialize script []) = 2 + size script)
  /\ (16505 < size script -> 3 + size script <= size (Serialize script [])).
Proof.
  intros Hc Hlen.
  destruct (Serialize_raw_size script Hc) as [H1 H2].
  repeat split; auto.
  intros Hbig. rewrite Serialize_raw by assumption. cbn [app].
  rewrite size_app.
  pose proof (WriteVarInt32_size_large (size script + 6) ltac:(lia)). lia.
Qed.

Lemma ReadVarInt_loop_app w : forall s acc n s1 ext,
  ReadVarInt_loop w acc s = (Some n, s1) ->
  ReadVarInt_loop w acc (s ++ ext) = (Some n, s1 ++ ext).
Proof.
  induction s as [|ch s IH]; intros acc n s1 ext H; [discriminate|].
  cbn [ReadVarInt_loop app] in *.
  destruct (Z.land (byte_to_Z ch) 128 =? 0).
  - now injection H as <- <-.
  - now apply IH.
Qed.

Lemma firstn_skipn_app n (s ext : list byte) :
  0 <= n <= size s ->
  firstn (Z.to_nat n) (s ++ ext) = firstn (Z.to_nat n) s
  /\ skipn (Z.to_nat n) (s ++ ext) = skipn (Z.to_nat n) s ++ ext
  /\ (n <=? size (s ++ ext)) = true.
Proof.
  intros Hn. unfold size in Hn.
  assert (Hz : (Z.to_nat n - length s = 0)%nat) by lia.
  rewrite firstn_app, skipn_app, Hz. cbn [firstn skipn].
  rewrite app_nil_r. repeat split.
  apply Z.leb_le. rewrite size_app. pose proof (size_nonneg ext). unfold size. lia.
Qed.

(** What [Decompress] makes of the script does not depend on the stream. *)
Lemma Decompress_stream tag vch script0 :
  exists ok script', forall s,
    Decompress tag vch (script0, s) = Returned ok (script', s).
Proof.
  unfold Decompress.
  repeat match goal with
         | |- context [if ?c then _ else _] => destruct c
         | |- context [match decompress_point ?a ?b with _ => _ end] =>
             destruct (decompress_point a b)
         end;
    unfold bind, modify_obj, ret; cbn [fst snd]; eauto.
Qed.

(** A decode that returns is not changed by bytes that follow in the
    stream. *)
Lemma Unserialize_app script0 s script' s' ext :
  Unserialize (script0, s) = Returned tt (script', s') ->
  Unserialize (script0, s ++ ext) = Returned tt (script', s' ++ ext).
Proof.
  rewrite !Unserialize_eq.
  destruct (ReadVarInt_loop 32 0 s) as [[tag|] s1] eqn:Hr; [|discriminate].
  rewrite (ReadVarInt_loop_app _ _ _ _ _ ext Hr).
  destruct (tag <? 6) eqn:Ht.
  - pose proof (GetSpecialSize_range tag) as Hg.
    destruct (GetSpecialSize tag <=? size s1) eqn:Hle; [|discriminate].
    apply Z.leb_le in Hle.
    destruct (firstn_skipn_app (GetSpecialSize tag) s1 ext) as (Hf & Hk & Hb); [lia|].
    rewrite Hf, Hk, Hb.
    destruct (Decompress_stream tag (firstn (Z.to_nat (GetSpecialSize tag)) s1) script0)
      as (ok & script1 & Hd).
    unfold bind, ret. rewrite !Hd.
    intros H. now injection H as <- <-.
  - destruct (tag_of_raw _ _ _ Hr Ht) as [Hw Hn]. cbv zeta. rewrite Hw.
    destruct (tag - 6 >? MAX_SCRIPT_SIZE_AFTER_GENESIS).
    + destruct (tag - 6 <=? size s1) eqn:Hle; [|discriminate].
      apply Z.leb_le in Hle.
      destruct (firstn_skipn_app (tag - 6) s1 ext) as (Hf & Hk & Hb); [lia|].
      rewrite Hk, Hb. intros H. now injection H as <- <-.
    + destruct (tag - 6 <=? size s1) eqn:Hle; [|discriminate].
      apply Z.leb_le in Hle.
      destruct (firstn_skipn_app (tag - 6) s1 ext) as (Hf & Hk & Hb); [lia|].
      rewrite Hf, Hk, Hb. intros H. now injection H as <- <-.
Qed.

(** X11: both decoders read only their own field: when a decode of a
    script, or of an output, returns, the same decode on the stream
    followed by more bytes returns the same object and leaves those bytes
    behind the cursor. *)
Theorem Unserialize_ignores_what_follows ext :
  (forall script0 s script' s',
     Unserialize (script0, s) = Returned tt (script', s') ->
     Unserialize (script0, s ++ ext) = Returned tt (script', s' ++ ext))
  /\ (forall txout0 s txout' s',
        CTxOutCompressor.Unserialize (txout0, s) = Returned tt (txout', s') ->
        CTxOutCompressor.Unserialize (txout0, s ++ ext)
        = Returned tt (txout', s' ++ ext)).
Proof.
  split.
  - intros. now apply Unserialize_app.
  - intros txout0 s txout' s'.
    rewrite !CTxOut_Unserialize_eq.
    destruct (ReadVarInt_loop 64 0 s) as [[nVal|] s1] eqn:Hr; [|discriminate].
    rewrite (ReadVarInt_loop_app _ _ _ _ _ ext Hr).
    destruct (Unserialize (scriptPubKey txout0, s1)) as [[] [script s2]|[script s2]] eqn:Hu;
      [|discriminate].
    pose proof (Unserialize_app _ _ _ _ ext Hu) as Hu'.
    match goal with
    | |- context [CScriptCompressor.Unserialize ?st] =>
        change (CScriptCompressor.Unserialize st)
          with (Unserialize (scriptPubKey txout0, s1 ++ ext))
    end.
    rewrite Hu'.
    intros H. now injection H as <- <-.
Qed.

End Framing.

(** ** The further properties on concrete inputs *)

Section MoreExamples.

Import CScriptCompressor.

Lemma Unserialize_unterminated_tag_witness :
  Unserialize ([x51], [x80; xff]) = Thrown ([x51], []).
Proof.
  apply (Unserialize_unterminated_tag [x51] [x80; xff]).
  repeat constructor; vm_compute; discriminate.
Defined.

Lemma Unserialize_raw_verbatim_witness :
  Unserialize ([x53], [x08; x51; x52; x99]) = Returned tt ([x51; x52], [x99]).
Proof.
  refine (proj1 (Unserialize_raw_verbatim [x53] [x08; x51; x52; x99] 8 [x51; x52; x99]
                   _ _ _ _)).
  - vm_compute. reflexivity.
  - vm_compute. discriminate.
  - vm_compute. discriminate.
  - vm_compute. discriminate.
Defined.

Lemma Unserialize_raw_truncated_witness :
  Unserialize ([x53; x54; x55; x56], [x09; x51]) = Thrown ([x53; x54; x55], [x51]).
Proof.
  refine (proj1 (Unserialize_raw_truncated [x53; x54; x55; x56] [x09; x51] 9 [x51]
                   _ _ _ _)).
  - vm_compute. reflexivity.
  - vm_compute. discriminate.
  - vm_compute. discriminate.
  - vm_compute. reflexivity.
Defined.

Lemma Unserialize_raw_size_bound_witness :
  size (fst (final_state (Unserialize ([x51], oversized_stream))))
  <= Z.max MAX_SCRIPT_SIZE_AFTER_GENESIS (size [x51] + 2).
Proof.
  refine (Unserialize_raw_size_bound [x51] oversized_stream 10007
            (repeat x01 (Z.to_nat 10001) ++ [x99]) oversized_stream_tag _).
  vm_compute. discriminate.
Defined.

Lemma Serialize_raw_encoded_size_witness :
  size (Serialize [x51; x52] []) = 1 + size [x51; x52].
Proof.
  refine (proj1 (Serialize_raw_encoded_size [x51; x52] _ _) _).
  - vm_compute. reflexivity.
  - vm_compute. reflexivity.
  - vm_compute. discriminate.
Defined.

Lemma Compress_size_witness :
  exists tag payload,
    x00 :: hash20 = byte_of_Z tag :: payload
    /\ 0 <= tag <= 5
    /\ size payload = GetSpecialSize tag
    /\ (size (x00 :: hash20) = 21 \/ size (x00 :: hash20) = 33)
    /\ forall script0 rest,
         Unserialize (script0, Serialize (PayToKeyID hash20) [] ++ rest)
         = (Decompress tag payload ;;; ret tt) (script0, rest).
Proof.
  apply (Compress_size (PayToKeyID hash20) (x00 :: hash20)).
  vm_compute. reflexivity.
Defined.

Lemma Serialize_Unserialize_roundtrip_witness :
  Unserialize ([x51], Serialize (PayToScriptID hash20) [] ++ [x99])
  = Returned tt (PayToScriptID hash20, [x99]).
Proof.
  apply (Serialize_Unserialize_roundtrip (PayToScriptID hash20)).
  - vm_compute. reflexivity.
  - intros H. vm_compute in H. discriminate.
  - intros pubkey H. vm_compute in H. discriminate.
Defined.

Lemma Serialize_raw_prefix_free_witness :
  [x51; x52] = [x51; x52] /\ [x99] = [x99].
Proof.
  apply (Serialize_raw_prefix_free [x51; x52] [x51; x52] [x99] [x99]).
  - vm_compute. reflexivity.
  - vm_compute. reflexivity.
  - vm_compute. reflexivity.
  - vm_compute. reflexivity.
  - reflexivity.
Defined.

Lemma CTxOut_Serialize_Unserialize_roundtrip_witness :
  let txout := {| nValue := 5000000000; scriptPubKey := PayToKeyID hash20 |} in
  CTxOutCompressor.Unserialize
    ({| nValue := 7; scriptPubKey := [x51] |},
     snd (final_state (CTxOutCompressor.Serialize (txout, []))) ++ [x99])
  = Returned tt (txout, [x99]).
Proof.
  apply (CTxOut_Serialize_Unserialize_roundtrip
           {| nValue := 5000000000; scriptPubKey := PayToKeyID hash20 |}).
  - vm_compute. split; [discriminate|reflexivity].
  - vm_compute. reflexivity.
  - vm_compute. reflexivity.
  - intros H. vm_compute in H. discriminate.
  - intros pubkey H. vm_compute in H. discriminate.
Defined.

Lemma CTxOut_Unserialize_amount_only_witness :
  CTxOutCompressor.Unserialize
    ({| nValue := 7; scriptPubKey := [x51] |}, WriteVarInt 64 50 ++ [])
  = Thrown ({| nValue := DecompressAmount 50; scriptPubKey := [x51] |}, []).
Proof.
  apply (CTxOut_Unserialize_amount_only {| nValue := 7; scriptPubKey := [x51] |} 50 []).
  - lia.
  - constructor.
Defined.

Lemma Unserialize_ignores_what_follows_witness :
  Unserialize ([x53], [x08; x51; x52] ++ [x99]) = Returned tt ([x51; x52], [] ++ [x99]).
Proof.
  apply (proj1 (Unserialize_ignores_what_follows [x99])).
  vm_compute. reflexivity.
Defined.

End MoreExamples.
